(** * Navigation tree, sitemap and output files of [website/generate.js]

    A shallow embedding of what the build script does with the
    documents it has loaded:

    - the fold that builds [navTree] (source lines 114-139),
    - the entry list handed to the sitemap serialiser (lines 141-152),
    - the URLs of the two files of each document (lines 70, 163 and
      243-250) and the file operations of the render tasks (lines
      158-254),

    and of what the loader computes itself (the path of a document and
    its by-line, lines 64-112), the choice of the page image (lines
    219-233) and the transform [rehypeLazyCss] (lines 262-298).

    JavaScript strings are [string]s, arrays are [list]s, objects with a
    fixed set of properties are records whose optional properties are
    [option]s.  The tree builder is given twice: as a fold, in which
    the in-place mutation of the tree through the [context] reference
    is a functional update along the path that [context] has walked,
    and step by step from loop test to loop test, with [context] as a
    position in the one shared tree; the two are proved to agree.  A
    URL is its origin, path, query and fragment; the serialiser of the
    sitemap and the pipeline that renders a page are libraries and
    stay outside. *)

From Stdlib Require Import List String Ascii Bool Arith Lia ZArith.
Import ListNotations.
Local Open Scope string_scope.
Local Open Scope list_scope.

(** ** JavaScript string primitives used by the script *)

Module Js.

(** [s.split(sep)] for a one-character separator: always at least one
    piece, and one more piece than there are separators. *)
Fixpoint split (sep : ascii) (s : string) : list string :=
  match s with
  | EmptyString => [EmptyString]
  | String c s' =>
      if Ascii.eqb c sep then EmptyString :: split sep s'
      else match split sep s' with
           | piece :: pieces => String c piece :: pieces
           | [] => [String c EmptyString]
           end
  end.

(** [a.join(sep)]. *)
Fixpoint join (sep : string) (a : list string) : string :=
  match a with
  | [] => EmptyString
  | [x] => x
  | x :: rest => x ++ sep ++ join sep rest
  end.

(** [a.slice(0, -1)]: everything but the last element. *)
Definition slice_0_m1 {A : Type} (a : list A) : list A := removelast a.

(** [a.slice(0, n)]. *)
Definition slice_0 {A : Type} (n : nat) (a : list A) : list A := firstn n a.

(** [a.find(p)] returns the first element satisfying [p]; the script
    then mutates that element, so its index is what the model needs. *)
Fixpoint findIndex {A : Type} (p : A -> bool) (a : list A) : option nat :=
  match a with
  | [] => None
  | x :: rest =>
      if p x then Some 0
      else match findIndex p rest with
           | Some i => Some (S i)
           | None => None
           end
  end.

(** Truthiness of a [boolean | undefined] property. *)
Definition truthy (b : option bool) : bool :=
  match b with Some true => true | _ => false end.

End Js.

(** ** Data model *)

(** The [meta] object of a document (the properties the script itself
    reads or writes; dates are milliseconds since the epoch). *)
Record Meta : Type := mkMeta {
  author : option string;
  published : option Z;
  modified : option Z;
  origin : option string;
  pathname : option string
}.

(** The [data] object of a document: the module's exports other than
    [default] and [info] (the front matter as key-value pairs).  The
    literal [{}] is [emptyData]. *)
Record Data : Type := mkData {
  matter : option (list (string * string));
  meta : option Meta;
  navExclude : option bool;
  navSortSelf : option Z
}.

Definition emptyData : Data := mkData None None None None.

(** A URL object, by the parts of its [href]: the scheme and host
    that precede the path (the [origin] of an [https] URL), the path,
    and the query and the fragment as they stand in [href] (with their
    leading ["?"] and ["#"], empty when the URL has none). *)
Record URL : Type := mkURL {
  url_origin : string;
  url_pathname : string;
  url_search : string;
  url_hash : string
}.

Definition href (u : URL) : string :=
  url_origin u ++ url_pathname u ++ url_search u ++ url_hash u.

(** One element of [allInfo] ([url], [ghUrl] and [Content] are opaque
    to the phases modelled here; [Content] is kept as a handle). *)
Record Info : Type := mkInfo {
  name : string;
  jsonUrl : URL;
  data : Data;
  Content : nat
}.

(** A navigation node ([Item] in [docs/_component/sort.js]). *)
Unset Elimination Schemes.
Inductive Item : Type :=
  mkItem (item_name : string) (item_data : Data) (item_children : list Item).
Set Elimination Schemes.

Definition item_name (i : Item) : string :=
  match i with mkItem n _ _ => n end.
Definition item_data (i : Item) : Data :=
  match i with mkItem _ d _ => d end.
Definition children (i : Item) : list Item :=
  match i with mkItem _ _ c => c end.

(** ** The navigation tree builder *)

(** [context.data = data]. *)
Definition set_data (d : Data) (context : Item) : Item :=
  mkItem (item_name context) d (children context).

(** Mutating the element at index [i] of an array in place. *)
Fixpoint update_nth {A : Type} (i : nat) (f : A -> A) (a : list A)
    {struct a} : list A :=
  match a, i with
  | [], _ => []
  | x :: rest, 0 => f x :: rest
  | x :: rest, S j => x :: update_nth j f rest
  end.

(** [parts.slice(0, partIndex + 1).join('/') + '/'] *)
Definition part_name (parts : list string) (partIndex : nat) : string :=
  Js.join "/" (Js.slice_0 (partIndex + 1) parts) ++ "/".

(** The inner loop, from the values [partIndexes] that [partIndex]
    still has to take, followed by the assignment on line 138.  What
    the loop does to the node [context] refers to is returned as the
    new value of that node. *)
Fixpoint descend (parts : list string) (partIndexes : list nat)
    (d : Data) (context : Item) : Item :=
  match partIndexes with
  | [] => set_data d context
  | partIndex :: later =>
      let name := part_name parts partIndex in
      match Js.findIndex (fun c => String.eqb (item_name c) name)
                         (children context) with
      | Some i =>
          mkItem (item_name context) (item_data context)
                 (update_nth i (descend parts later d) (children context))
      | None =>
          mkItem (item_name context) (item_data context)
                 (children context
                  ++ [descend parts later d (mkItem name emptyData [])])
      end
  end.

(** [name.split('/').slice(0, -1)] *)
Definition parts_of (name : string) : list string :=
  Js.slice_0_m1 (Js.split "/" name).

(** The values of [partIndex] in the loop
    [while (++partIndex < parts.length)], starting from [0]. *)
Definition part_indexes (parts : list string) : list nat :=
  seq 1 (List.length parts - 1).

(** One iteration of the outer loop. *)
Definition add_document (tree : Item) (info : Info) : Item :=
  let parts := parts_of (name info) in
  if Js.truthy (navExclude (data info)) then tree
  else descend parts (part_indexes parts) (data info) tree.

Definition emptyTree : Item := mkItem "/" emptyData [].

(** The whole fold: [navTree] after the outer loop. *)
Definition navTree (allInfo : list Info) : Item :=
  fold_left add_document allInfo emptyTree.

(** Every node of a tree, parents before children, siblings in order. *)
Fixpoint nodes (t : Item) : list Item :=
  match t with
  | mkItem _ _ cs => t :: flat_map nodes cs
  end.

(** ** Paths *)

(** A path segment: a string without ["/"]. *)
Fixpoint slash_free (s : string) : bool :=
  match s with
  | EmptyString => true
  | String c s' => negb (Ascii.eqb c "/") && slash_free s'
  end.

(** [x] is [n] followed by one segment and a ["/"]: the path of a node
    one level below the node of path [n]. *)
Definition child_of (n x : string) : Prop :=
  exists seg, slash_free seg = true /\ x = (n ++ seg ++ "/")%string.

(** [x] starts with [n]. *)
Definition under (n x : string) : Prop := exists r, x = (n ++ r)%string.

Fixpoint strip (n x : string) : option string :=
  match n, x with
  | EmptyString, _ => Some x
  | String a n', String b x' => if Ascii.eqb a b then strip n' x' else None
  | String _ _, EmptyString => None
  end.

Fixpoint one_segment (r : string) : bool :=
  match r with
  | EmptyString => false
  | String c r' => if Ascii.eqb c "/" then String.eqb r' "" else one_segment r'
  end.

(** Decision procedure for [child_of]. *)
Definition child_ofb (n x : string) : bool :=
  match strip n x with
  | Some r => one_segment r
  | None => false
  end.

Fixpoint ends_with_slash (s : string) : bool :=
  match s with
  | EmptyString => false
  | String c EmptyString => Ascii.eqb c "/"
  | String _ s' => ends_with_slash s'
  end.

Definition starts_with_slash (s : string) : bool :=
  match s with
  | String c _ => Ascii.eqb c "/"
  | EmptyString => false
  end.

(** The string has two ["/"] in a row: a path with an empty segment. *)
Fixpoint double_slash (s : string) : bool :=
  match s with
  | EmptyString => false
  | String c s' => (Ascii.eqb c "/" && starts_with_slash s') || double_slash s'
  end.

(** A canonical path starts and ends with ["/"]: the loader cuts it
    from the file's URL at the slash that ends the input directory and
    replaces the extension by ["/"] (lines 66-69). *)
Definition canonical (p : string) : bool :=
  starts_with_slash p && ends_with_slash p.

(** The names the inner loop computes for a document of path [p], in
    the order it computes them: the directory prefixes of [p] below the
    root, and last [p] itself. *)
Definition prefixes (p : string) : list string :=
  map (part_name (parts_of p)) (part_indexes (parts_of p)).

(** Each name of [ns] is one level below the one before, from [n]. *)
Fixpoint chain (n : string) (ns : list string) : Prop :=
  match ns with
  | [] => True
  | q :: later => child_of n q /\ chain q later
  end.

(** ** Reading the input list *)

(** What [a.push(x)] guarded by a failed search for [x] does to the
    array of names. *)
Definition push_new (acc : list string) (x : string) : list string :=
  if existsb (String.eqb x) acc then acc else acc ++ [x].

(** The distinct elements of [l], in the order of their first
    occurrence. *)
Definition first_occurrences (l : list string) : list string :=
  fold_left push_new l [].

Definition excluded (info : Info) : bool := Js.truthy (navExclude (data info)).

(** Every path that occurs in a list of documents as the path of a
    document that is not excluded or as a directory prefix of one, in
    input order, shallowest first within a document. *)
Definition visited (allInfo : list Info) : list string :=
  flat_map (fun info => if excluded info then [] else prefixes (name info))
           allInfo.

(** The same, exclusion flags ignored. *)
Definition occurring (allInfo : list Info) : list string :=
  flat_map (fun info => prefixes (name info)) allInfo.

(** The last document of the list that has path [p] and is not
    excluded. *)
Definition last_document (p : string) (allInfo : list Info) : option Info :=
  find (fun info => negb (excluded info) && String.eqb (name info) p)
       (rev allInfo).

(** The metadata the build leaves at path [p]. *)
Definition data_for (allInfo : list Info) (p : string) : Data :=
  match last_document p allInfo with
  | Some info => data info
  | None => emptyData
  end.

(** The last document of the list that has path [p], excluded or not. *)
Definition last_listed (p : string) (allInfo : list Info) : option Info :=
  find (fun info => String.eqb (name info) p) (rev allInfo).

(** The position of the first occurrence of [x] in [l] (the length of
    [l] if there is none). *)
Fixpoint first_index (x : string) (l : list string) : nat :=
  match l with
  | [] => 0
  | y :: l' => if String.eqb y x then 0 else S (first_index x l')
  end.

Definition upd (D : string -> Data) (k : string) (d : Data) : string -> Data :=
  fun x => if String.eqb x k then d else D x.

(** ** Invariant of the construction *)

(** The invariant of the data model: the root has path ["/"] and
    every other node is one segment deeper than its parent. *)
Definition path_invariant (t : Item) : Prop :=
  item_name t = "/"
  /\ forall n c, In n (nodes t) -> In c (children n) ->
                 child_of (item_name n) (item_name c).

Definition every_node (P : Item -> Prop) (t : Item) : Prop :=
  Forall P (nodes t).

(** A node is as the paths [V] visited so far and the metadata [D]
    assigned so far require. *)
Definition node_ok (V : list string) (D : string -> Data) (m : Item) : Prop :=
  map item_name (children m)
    = first_occurrences (filter (child_ofb (item_name m)) V)
  /\ item_data m = D (item_name m).

Definition closed (V : list string) : Prop :=
  forall x q, In x V -> ends_with_slash q = true -> child_of q x ->
              q = "/" \/ In q V.

Definition supported (D : string -> Data) (V : list string) : Prop :=
  forall x, x <> "/" -> ~ In x V -> D x = emptyData.

(** The input the loader produces: every path is canonical. *)
Definition canonical_paths (allInfo : list Info) : Prop :=
  Forall (fun info => canonical (name info) = true) allInfo.

(** ** The construction as the script runs it

    The two loops step by step.  The reference [context] into the tree
    is the position of the node it refers to: the indices of the
    children to follow from the root. *)

Fixpoint subtree_at (pos : list nat) (t : Item) : option Item :=
  match pos with
  | [] => Some t
  | i :: pos' =>
      match nth_error (children t) i with
      | Some c => subtree_at pos' c
      | None => None
      end
  end.

(** Mutating the node at position [pos]. *)
Fixpoint update_at (pos : list nat) (f : Item -> Item) (t : Item) : Item :=
  match pos with
  | [] => f t
  | i :: pos' =>
      mkItem (item_name t) (item_data t)
             (update_nth i (update_at pos' f) (children t))
  end.

(** [context.children.push({name, data: {}, children: []})] *)
Definition push_child (name : string) (context : Item) : Item :=
  mkItem (item_name context) (item_data context)
         (children context ++ [mkItem name emptyData []]).

(** The body of the inner loop (lines 127-135) for one value of
    [partIndex], on the tree and the position of [context].  The
    position always refers to a node ([inner_body_descend] below), so
    the last case does not occur. *)
Definition inner_body (parts : list string) (state : Item * list nat)
    (partIndex : nat) : Item * list nat :=
  let (tree, context) := state in
  let name := part_name parts partIndex in
  match subtree_at context tree with
  | Some node =>
      match Js.findIndex (fun c => String.eqb (item_name c) name)
                         (children node) with
      | Some i => (tree, context ++ [i])
      | None =>
          (update_at context (push_child name) tree,
           context ++ [List.length (children node)])
      end
  | None => state
  end.

(** The program points at which the state is observed: the test of the
    outer loop and the test of the inner loop, each with the variables
    in scope there. *)
Inductive State : Type :=
| Outer (index : Z) (tree : Item)
| Inner (index : Z) (tree : Item) (parts : list string) (data : Data)
        (partIndex : nat) (context : list nat).

Definition tree_of (s : State) : Item :=
  match s with
  | Outer _ tree => tree
  | Inner _ tree _ _ _ _ => tree
  end.

(** [let index = -1] and the tree of line 115. *)
Definition initial : State := Outer (-1) emptyTree.

(** From one test to the next; [None] when the outer loop ends.  (The
    element [allInfo[index]] exists when the test has succeeded.) *)
Definition step (allInfo : list Info) (s : State) : option State :=
  match s with
  | Outer index tree =>
      let index := (index + 1)%Z in
      if (index <? Z.of_nat (List.length allInfo))%Z then
        match nth_error allInfo (Z.to_nat index) with
        | Some info =>
            let parts := parts_of (name info) in
            if Js.truthy (navExclude (data info)) then Some (Outer index tree)
            else Some (Inner index tree parts (data info) 0 [])
        | None => None
        end
      else None
  | Inner index tree parts data partIndex context =>
      let partIndex := partIndex + 1 in
      if (partIndex <? List.length parts)%nat then
        let (tree', context') := inner_body parts (tree, context) partIndex in
        Some (Inner index tree' parts data partIndex context')
      else Some (Outer index (update_at context (set_data data) tree))
  end.

Inductive reaches (allInfo : list Info) : State -> State -> Prop :=
| reaches_refl s : reaches allInfo s s
| reaches_step s s' s'' :
    step allInfo s = Some s' -> reaches allInfo s' s'' ->
    reaches allInfo s s''.

(** The state in which the outer loop has ended. *)
Definition finished (allInfo : list Info) (s : State) : Prop :=
  exists index tree,
    s = Outer index tree /\ (Z.of_nat (List.length allInfo) <= index + 1)%Z.

(** What the state is after any number of steps from [initial]: the
    outer loop is between two documents, or the inner loop has run for
    the values [1 .. partIndex] on the tree of the documents before. *)
Definition expected (allInfo : list Info) (s : State) : Prop :=
  match s with
  | Outer index tree =>
      exists k,
        index = (Z.of_nat k - 1)%Z /\ k <= List.length allInfo
        /\ tree = navTree (firstn k allInfo)
  | Inner index tree parts d partIndex context =>
      exists k info,
        index = Z.of_nat k /\ nth_error allInfo k = Some info
        /\ excluded info = false
        /\ parts = parts_of (name info) /\ d = data info
        /\ partIndex <= List.length parts - 1
        /\ (tree, context)
           = fold_left (inner_body parts) (seq 1 partIndex)
                       (navTree (firstn k allInfo), [])
  end.

(** ** Comparing two trees *)

(** Every node of [before] is still in [after], at the same position
    and with the same path. *)
Definition keeps_nodes (before after : Item) : Prop :=
  forall pos m,
    subtree_at pos before = Some m ->
    exists m', subtree_at pos after = Some m' /\ item_name m' = item_name m.

(** [after] is [before] with the metadata of the node of path [p]
    replaced by [d] and nothing else changed: that node keeps its path
    and its list of children, every position keeps its node, with its
    path, its number of children and, except at the node of [p], its
    metadata, and there is no position with a new node. *)
Definition only_data_replaced (before after : Item) (p : string) (d : Data)
  : Prop :=
  exists pos n,
    subtree_at pos before = Some n
    /\ item_name n = p
    /\ subtree_at pos after = Some (mkItem (item_name n) d (children n))
    /\ (forall pos' m,
          subtree_at pos' before = Some m ->
          exists m',
            subtree_at pos' after = Some m'
            /\ item_name m' = item_name m
            /\ List.length (children m') = List.length (children m)
            /\ (pos' <> pos -> item_data m' = item_data m))
    /\ (forall pos' m',
          subtree_at pos' after = Some m' ->
          exists m, subtree_at pos' before = Some m).

(** ** URLs

    The [URL] class, for the references the script resolves: document
    paths, which the loader cuts from the [href] of a file's URL, and
    file names put before or after them.  A reference is a path, a
    query from the first ["?"] and a fragment from the first ["#"]; the
    query and fragment of the base are dropped (but for a reference
    without path).  A path that starts with ["/"] replaces the path of
    the base; any other path replaces what follows the last ["/"] of
    the base path, a leading ["./"] being skipped.

    What the class does beyond that is not modelled: a path that
    starts with ["//"] names a host, ["."] and [".."] segments are
    resolved, a backslash counts as a slash, some characters are
    percent-encoded.  [simple_path] holds of the paths on which none of
    this happens. *)

(** The part of [s] before the first character for which [stop] holds,
    and the rest of [s] from that character on. *)
Fixpoint up_to (stop : ascii -> bool) (s : string) : string :=
  match s with
  | EmptyString => EmptyString
  | String c s' => if stop c then EmptyString else String c (up_to stop s')
  end.

Fixpoint from (stop : ascii -> bool) (s : string) : string :=
  match s with
  | EmptyString => EmptyString
  | String c s' => if stop c then s else from stop s'
  end.

Definition is_hash (c : ascii) : bool := Ascii.eqb c "#".
Definition is_question (c : ascii) : bool := Ascii.eqb c "?".

Definition reference_hash (input : string) : string := from is_hash input.
Definition reference_search (input : string) : string :=
  from is_question (up_to is_hash input).
Definition reference_path (input : string) : string :=
  up_to is_question (up_to is_hash input).

Definition url_dirname (pathname : string) : string :=
  Js.join "/" (removelast (Js.split "/" pathname)) ++ "/".

Definition drop_dot_slash (input : string) : string :=
  match input with
  | String "." (String "/" rest) => rest
  | _ => input
  end.

(** [new URL(input, base)] *)
Definition new_URL (input : string) (base : URL) : URL :=
  let path := reference_path input in
  let search := reference_search input in
  let hash := reference_hash input in
  if starts_with_slash path then mkURL (url_origin base) path search hash
  else if String.eqb path ""
  then mkURL (url_origin base) (url_pathname base)
             (if String.eqb search "" then url_search base else search)
             hash
  else mkURL (url_origin base)
             (url_dirname (url_pathname base) ++ drop_dot_slash path)
             search hash.

(** The string has neither ["?"] nor ["#"]. *)
Fixpoint plain (s : string) : bool :=
  match s with
  | EmptyString => true
  | String c s' => negb (is_question c) && negb (is_hash c) && plain s'
  end.

(** A character that the URL parser copies into a path as it is: a
    printable ASCII character other than the double quote, [#], [%],
    [<], [>], [?], the brackets, the backslash, [^], the backquote,
    the braces and the bar.  ([%] is copied too, but starts an escape
    that [fileURLToPath] decodes.) *)
Definition path_char (c : ascii) : bool :=
  let n := nat_of_ascii c in
  (33 <=? n)%nat && (n <=? 126)%nat
  && negb (existsb (Nat.eqb n)
             [34; 35; 37; 60; 62; 63; 91; 92; 93; 94; 96; 123; 124; 125]).

Fixpoint path_chars (s : string) : bool :=
  match s with
  | EmptyString => true
  | String c s' => path_char c && path_chars s'
  end.

Definition dot_segment (segment : string) : bool :=
  String.eqb segment "." || String.eqb segment "..".

(** A path that the URL parser keeps as it is written, and that is the
    path of the file on disk: made of [path_char]s, with no ["."] or
    [".."] segment, and not starting with ["//"]. *)
Definition simple_path (p : string) : bool :=
  path_chars p
  && negb (existsb dot_segment (Js.split "/" p))
  && negb (match p with
           | String "/" (String "/" _) => true
           | _ => false
           end).

(** What the script reads of [docs/_config.js]. *)
Record Config : Type := mkConfig {
  site : URL;
  output : URL
}.

(** Line 70: where the loader puts the metadata file of a document. *)
Definition json_url (config : Config) (name : string) : URL :=
  new_URL ("." ++ name ++ "index.json") (output config).

(** ** The sitemap *)




(** ** The render phase (lines 158-254) *)

(** What [fs.writeFile] is given as the file: a URL object (line 163)
    or a path (line 250). *)
Inductive PathLike : Type :=
| UrlObject (u : URL)
| PathString (p : string).

Inductive Effect : Type :=
| Mkdir (dir : string)
| WriteFile (file : PathLike) (contents : string)
| ConsoleLog (line : string).

(** The library functions whose results the tasks pass on, as
    functions of their arguments. *)
Record Libraries : Type := mkLibraries {
  JSON_stringify : Data -> string;
  fileURLToPath : URL -> string;
  path_dirname : string -> string
}.

(** Lines 159-252: the operations of the task of the document [d], in
    the order in which the task starts them.  [page] is [String(file)]
    on line 250, the page that the pipeline of lines 165-247 returns
    for the document in this run.  It is a parameter: the page is
    rendered from the shared tree, whose nodes hold the [data] objects
    of the documents themselves, and each task writes [meta.origin] and
    [meta.pathname] into its own (lines 176-177), so that what a page
    is rendered from depends on the tasks that ran before.  The
    metadata file is written before the task changes [data], and no
    task changes the [data] of another document.  [file.path] is the
    path of the URL given to [VFile], and [file.dirname] its
    directory. *)
Definition render_task (lib : Libraries) (d : Info) (page : string)
  : list Effect :=
  let file_path := fileURLToPath lib (new_URL "index.html" (jsonUrl d)) in
  let file_dirname := path_dirname lib file_path in
  [ Mkdir (path_dirname lib (fileURLToPath lib (jsonUrl d)));
    WriteFile (UrlObject (jsonUrl d)) (JSON_stringify lib (data d)) ]
  ++ (if String.eqb file_dirname "" then [] else [Mkdir file_dirname])
  ++ [ WriteFile (PathString file_path) page;
       ConsoleLog ("  generate: `" ++ name d ++ "`") ].

(** The tasks of line 159, one per document, in document order. *)
Definition render_tasks (lib : Libraries) (allInfo : list Info)
    (pages : list string) : list (list Effect) :=
  map (fun task => render_task lib (fst task) (snd task))
      (combine allInfo pages).

(** [pAll] runs the tasks concurrently: what happens, when no
    operation fails, is some interleaving of their operations. *)
Inductive interleaving {A : Type} : list (list A) -> list A -> Prop :=
| interleaving_done tasks :
    Forall (fun task => task = []) tasks -> interleaving tasks []
| interleaving_step before e rest after log :
    interleaving (before ++ rest :: after) log ->
    interleaving (before ++ (e :: rest) :: after) (e :: log).

(** ** Examples *)

Definition example_config : Config :=
  mkConfig (mkURL "https://mdxjs.com" "/" "" "")
           (mkURL "file://" "/mdx/public/" "" "").

Definition example_libraries : Libraries :=
  mkLibraries (fun _ => "{}") url_pathname
              (fun path => Js.join "/" (removelast (Js.split "/" path))).

(** Documents for the examples. *)
Definition doc (n : string) (d : Data) : Info :=
  mkInfo n (mkURL "" "" "" "") d 0.
Definition meta_of (a : string) : Data :=
  mkData (Some []) (Some (mkMeta (Some a) None None None None)) None None.
Definition hidden_meta_of (a : string) : Data :=
  mkData (Some []) (Some (mkMeta (Some a) None None None None))
         (Some true) None.

(** ** The loader (lines 64-112) *)

(** [s.slice(start)] *)
Fixpoint string_drop (n : nat) (s : string) : string :=
  match n, s with
  | 0, _ => s
  | S n', String _ s' => string_drop n' s'
  | S _, EmptyString => EmptyString
  end.

Definition slice_from (start : Z) (s : string) : string :=
  let len := Z.of_nat (String.length s) in
  string_drop
    (Z.to_nat (if (start <? 0)%Z then Z.max (len + start) 0
               else Z.min start len))
    s.

(** [s.replace(/p$/, by)] for a regular expression that matches the
    literal strings [pats] and nothing else: the search goes from left
    to right for a position from which the rest of the string is one of
    [pats], and replaces that rest. *)
Fixpoint replace_at_end (pats : list string) (by_ : string) (s : string)
  : string :=
  if existsb (String.eqb s) pats then by_
  else match s with
       | EmptyString => EmptyString
       | String c s' => String c (replace_at_end pats by_ s')
       end.

(** [s] ends with [suffix]. *)
Fixpoint ends_with (suffix s : string) : bool :=
  String.eqb s suffix
  || match s with
     | EmptyString => false
     | String _ s' => ends_with suffix s'
     end.

(** Lines 66-69: the path of the document in the file of URL [url],
    given [config.input.href] and [url.href]. *)
Definition document_name (input_href url_href : string) : string :=
  replace_at_end ["/index/"] "/"
    (replace_at_end [".md"; ".mdx"] "/"
       (slice_from (Z.of_nat (String.length input_href) - 1) url_href)).





(** *** Authors (lines 77-99) *)

Record Author : Type := mkAuthor {
  author_github : option string;
  author_name : string;
  author_twitter : option string;
  author_url : option string
}.

(** [info.author]: an array, one author, or [undefined]. *)
Inductive AuthorField : Type :=
| AuthorUndefined
| AuthorOne (a : Author)
| AuthorMany (l : list Author).

(** Line 78. *)
Definition authors_of (field : AuthorField) : list Author :=
  match field with
  | AuthorMany l => l
  | AuthorOne a => [a]
  | AuthorUndefined => []
  end.

(** Truthiness of a [string | undefined] property. *)
Definition truthy_string (s : option string) : bool :=
  match s with
  | Some v => negb (String.eqb v "")
  | None => false
  end.

(** Lines 81-83: [restInfo.authorTwitter] after the conditional
    assignment, from the value [info] had. *)
Definition author_twitter_of (authors : list Author)
    (authorTwitter : option string) : option string :=
  match authors with
  | first :: _ =>
      if truthy_string (author_twitter first) then author_twitter first
      else authorTwitter
  | [] => authorTwitter
  end.

(** Lines 85-88. *)
Definition abbreviated_authors (authorNames : list string) : list string :=
  if (3 <? List.length authorNames)%nat
  then firstn 2 authorNames ++ ["others"]
  else authorNames.

(** Lines 94-97: the value the object literal gives the key [author]
    before the module's own [meta] is spread over it, with
    [listFormat.format] as a function. *)
Definition author_line (format : list string -> string)
    (field : AuthorField) : option string :=
  let abbreviatedAuthors :=
    abbreviated_authors (map author_name (authors_of field)) in
  if (0 <? List.length abbreviatedAuthors)%nat
  then Some (format abbreviatedAuthors)
  else None.

(** A property of an object that may not have it: a property that is
    there can still hold [undefined]. *)
Inductive Property (A : Type) : Type :=
| Absent
| Present (value : option A).

Arguments Absent {A}.
Arguments Present {A} value.

(** Lines 90-99: [data.meta.author] as the loader leaves it, given the
    [author] property of the [meta] that the module exports ([Absent]
    also when the module exports no [meta]).  The spread
    [...data.meta] comes last in the literal, so a property of the
    exported [meta] replaces the one computed from [info]. *)
Definition stored_author (format : list string -> string)
    (field : AuthorField) (exported : Property string) : option string :=
  match exported with
  | Present value => value
  | Absent => author_line format field
  end.

(** ** The page image (lines 219-233) *)

Record Image : Type := mkImage {
  image_url : string;
  image_width : Z;
  image_height : Z
}.

Definition page_image (config : Config) (name : string) : Image :=
  let canonical := new_URL name (site config) in
  if String.eqb name "/"
  then mkImage (href (new_URL "og.png" (site config))) 3062 1490
  else mkImage
         (if String.eqb name "/blog/v2/" || String.eqb name "/migrating/v2/"
          then href (new_URL "og-v2.png" (site config))
          else href (new_URL "index.png" canonical))
         2400 1256.

(** ** [rehypeLazyCss] (lines 262-298) *)

(** An object with string values: its properties in insertion order,
    no name twice. *)
Definition Props : Type := list (string * string).

Fixpoint get (k : string) (o : Props) : option string :=
  match o with
  | [] => None
  | (k', v) :: rest => if String.eqb k' k then Some v else get k rest
  end.

(** [o[k] = v]: an existing property keeps its place. *)
Fixpoint assign (k v : string) (o : Props) : Props :=
  match o with
  | [] => [(k, v)]
  | (k', v') :: rest =>
      if String.eqb k' k then (k, v) :: rest else (k', v') :: assign k v rest
  end.

(** [{...o}] *)
Definition spread (o : Props) : Props :=
  fold_left (fun acc kv => assign (fst kv) (snd kv) acc) o [].

(** Lines 283-287: the properties of the link that loads the style. *)
Definition preload_props (props : Props) : Props :=
  assign "onLoad" "this.onload=null;this.rel='stylesheet'"
    (assign "as" "style" (assign "rel" "preload" (spread props))).

(** Line 289: the properties of the link for readers without script. *)
Definition stylesheet_props (props : Props) : Props :=
  assign "rel" "stylesheet" (spread props).

(** A hast node: the root, an element, or a node without children. *)
Unset Elimination Schemes.
Inductive Node : Type :=
| Root (root_children : list Node)
| Element (tagName : string) (properties : Props) (element_children : list Node)
| Literal (type value : string).
Set Elimination Schemes.

Definition node_children (n : Node) : list Node :=
  match n with
  | Root cs => cs
  | Element _ _ cs => cs
  | Literal _ _ => []
  end.

(** [n.children.push(...more)] *)
Definition push_children (more : list Node) (n : Node) : Node :=
  match n with
  | Root cs => Root (cs ++ more)
  | Element tag props cs => Element tag props (cs ++ more)
  | Literal _ _ => n
  end.

Fixpoint node_at (pos : list nat) (t : Node) : option Node :=
  match pos with
  | [] => Some t
  | i :: pos' =>
      match nth_error (node_children t) i with
      | Some c => node_at pos' c
      | None => None
      end
  end.

(** Mutating the node at position [pos]. *)
Fixpoint node_update (pos : list nat) (f : Node -> Node) (t : Node) : Node :=
  match pos with
  | [] => f t
  | i :: pos' =>
      match t with
      | Root cs => Root (update_nth i (node_update pos' f) cs)
      | Element tag props cs =>
          Element tag props (update_nth i (node_update pos' f) cs)
      | Literal _ _ => t
      end
  end.

(** What the transform calls of [hastscript] and [hast-util-select]:
    [h(tagName, properties, children)], and [select(selector, tree)],
    which gives the element found as its position in the tree. *)
Record Hast : Type := mkHast {
  h : string -> Props -> list Node -> Node;
  select : string -> Node -> option (list nat)
}.

(** The transform that [rehypeLazyCss(styles)] returns, on [tree]:
    the tree after the mutation, or [None] for the [AssertionError] of
    line 271. *)
Definition rehypeLazyCss (lib : Hast) (styles : list Props) (tree : Node)
  : option Node :=
  match select lib "head" tree with
  | None => None
  | Some head =>
      let enabled :=
        map (fun props => h lib "link" (preload_props props) []) styles in
      let disabled :=
        map (fun props => h lib "link" (stylesheet_props props) []) styles in
      let tree := node_update head (push_children enabled) tree in
      if (0 <? List.length disabled)%nat
      then Some (node_update head
                   (push_children [h lib "noscript" [] disabled]) tree)
      else Some tree
  end.

(** A library for the examples: [h] builds the element, [select] finds
    a [head] that is the first child of the first child of the root. *)
Definition example_hast : Hast :=
  mkHast Element
         (fun _ tree =>
            match node_at [0; 0] tree with
            | Some (Element "head" _ _) => Some [0; 0]
            | _ => None
            end).

(* ================================================================ *)
(** * Properties *)

(** ** Strings *)

Section Strings.

Local Open Scope string_scope.

Lemma append_nil_r (s : string) : s ++ "" = s.
Proof. induction s; simpl; congruence. Qed.

Lemma append_assoc (a b c : string) : (a ++ b) ++ c = a ++ (b ++ c).
Proof. induction a; simpl; congruence. Qed.

Lemma length_append (a b : string) :
  String.length (a ++ b) = String.length a + String.length b.
Proof. induction a; simpl; congruence. Qed.

Lemma append_inj_l (a x y : string) : a ++ x = a ++ y -> x = y.
Proof. induction a; simpl; intros H; [assumption | injection H; auto]. Qed.

Lemma split_not_nil (sep : ascii) (s : string) : Js.split sep s <> [].
Proof.
  destruct s as [|c s]; simpl; [discriminate|].
  destruct (Ascii.eqb c sep); [discriminate|].
  destruct (Js.split sep s); discriminate.
Qed.

Lemma split_slash_free (s : string) :
  Forall (fun piece => slash_free piece = true) (Js.split "/" s).
Proof.
  induction s as [|c s IH]; simpl.
  - repeat constructor.
  - destruct (Ascii.eqb c "/") eqn:E.
    + constructor; [reflexivity | assumption].
    + destruct (Js.split "/" s) as [|piece pieces].
      * repeat constructor. simpl. now rewrite E.
      * inversion IH; subst. constructor; [|assumption].
        simpl. rewrite E. assumption.
Qed.

Lemma join_split (s : string) : Js.join "/" (Js.split "/" s) = s.
Proof.
  induction s as [|c s IH]; simpl; [reflexivity|].
  destruct (Ascii.eqb c "/") eqn:E.
  - apply Ascii.eqb_eq in E. subst c.
    pose proof (split_not_nil "/" s) as Hne.
    destruct (Js.split "/" s) as [|piece pieces]; [congruence|].
    simpl in *. now rewrite IH.
  - pose proof (split_not_nil "/" s) as Hne.
    destruct (Js.split "/" s) as [|piece pieces]; [congruence|].
    destruct pieces; simpl in *; now rewrite <- IH.
Qed.

Lemma split_snoc (s : string) :
  Js.split "/" (s ++ "/") = (Js.split "/" s ++ [""])%list.
Proof.
  induction s as [|c s IH]; simpl; [reflexivity|].
  destruct (Ascii.eqb c "/"); rewrite IH; [reflexivity|].
  pose proof (split_not_nil "/" s) as Hne.
  destruct (Js.split "/" s); [congruence | reflexivity].
Qed.

Lemma ends_with_slash_spec (s : string) :
  ends_with_slash s = true <-> exists s0, s = s0 ++ "/".
Proof.
  split.
  - induction s as [|c s IH]; simpl; [discriminate|].
    destruct s as [|c' s'].
    + intros E. apply Ascii.eqb_eq in E. subst. now exists "".
    + intros E. destruct (IH E) as [s0 ->]. now exists (String c s0).
  - intros [s0 ->]. induction s0 as [|c s0 IH]; simpl; [reflexivity|].
    destruct (s0 ++ "/") eqn:E; [destruct s0; discriminate | assumption].
Qed.

Lemma strip_spec (n x r : string) : strip n x = Some r <-> x = n ++ r.
Proof.
  revert x. induction n as [|a n IH]; intros x; simpl.
  - split; congruence.
  - destruct x as [|b x]; [split; discriminate|].
    destruct (Ascii.eqb_spec a b) as [->|Hab].
    + rewrite IH. split; congruence.
    + split; [discriminate | congruence].
Qed.

Lemma one_segment_spec (r : string) :
  one_segment r = true <-> exists seg, slash_free seg = true /\ r = seg ++ "/".
Proof.
  induction r as [|c r IH]; simpl.
  - split; [discriminate|]. intros (seg & _ & H). destruct seg; discriminate.
  - destruct (Ascii.eqb_spec c "/") as [->|Hc].
    + rewrite String.eqb_eq. split.
      * intros ->. now exists "".
      * intros (seg & Hs & H). destruct seg as [|c' seg]; simpl in *.
        -- congruence.
        -- injection H as <- _. discriminate.
    + rewrite IH. split.
      * intros (seg & Hs & ->). exists (String c seg). simpl.
        split; [|reflexivity].
        destruct (Ascii.eqb_spec c "/"); [contradiction | assumption].
      * intros (seg & Hs & H). destruct seg as [|c' seg]; simpl in *.
        -- congruence.
        -- injection H as <- ->. apply andb_true_iff in Hs. now exists seg.
Qed.

Lemma child_ofb_spec (n x : string) : child_ofb n x = true <-> child_of n x.
Proof.
  unfold child_ofb, child_of. destruct (strip n x) as [r|] eqn:E.
  - apply strip_spec in E. subst x. rewrite one_segment_spec.
    split; intros (seg & Hs & H); exists seg; split; auto.
    + now rewrite H.
    + now apply append_inj_l in H.
  - split; [discriminate|]. intros (seg & _ & H).
    apply strip_spec in H. congruence.
Qed.

Lemma child_of_under (n x : string) : child_of n x -> under n x.
Proof. intros (seg & _ & ->). now exists (seg ++ "/"). Qed.

Lemma child_of_length (n x : string) :
  child_of n x -> String.length n < String.length x.
Proof.
  intros (seg & _ & ->). rewrite !length_append. simpl. lia.
Qed.

Lemma under_length (n x : string) :
  under n x -> String.length n <= String.length x.
Proof. intros [r ->]. rewrite length_append. lia. Qed.

Lemma under_refl (n : string) : under n n.
Proof. exists "". now rewrite append_nil_r. Qed.

Lemma under_trans (a b c : string) : under a b -> under b c -> under a c.
Proof. intros [r ->] [r' ->]. exists (r ++ r'). apply append_assoc. Qed.

(** The first segment of a string is determined by the string. *)
Lemma first_segment_unique (s s' r r' : string) :
  slash_free s = true -> slash_free s' = true ->
  s ++ "/" ++ r = s' ++ "/" ++ r' -> s = s'.
Proof.
  revert s'. induction s as [|c s IH]; intros [|c' s'] Hs Hs' H; simpl in *.
  - reflexivity.
  - injection H as <- _. discriminate.
  - injection H as -> _. discriminate.
  - injection H as <- H. apply andb_true_iff in Hs, Hs'.
    f_equal. apply IH; tauto.
Qed.

(** Two different children of one node span disjoint sets of paths. *)
Lemma child_cone (n a b x : string) :
  child_of n a -> child_of n b -> under a x -> under b x -> a = b.
Proof.
  intros (s & Hs & ->) (s' & Hs' & ->) [r Hr] [r' Hr'].
  rewrite Hr in Hr'. rewrite !append_assoc in Hr'.
  apply append_inj_l in Hr'.
  now rewrite (first_segment_unique s s' ("" ++ r) ("" ++ r') Hs Hs' Hr').
Qed.

Lemma one_slash_only (s u v : string) :
  slash_free s = true -> s ++ "/" <> u ++ "/" ++ v ++ "/".
Proof.
  revert u. induction s as [|c s IH]; intros [|c' u] Hs H; simpl in *.
  - destruct v; discriminate.
  - injection H as _ H. destruct u; discriminate.
  - injection H as -> _. discriminate.
  - injection H as _ H. apply andb_true_iff in Hs. now apply (IH u).
Qed.

(** The parent path of a path is determined by the path. *)
Lemma parent_unique (n n' x : string) :
  ends_with_slash n = true -> ends_with_slash n' = true ->
  child_of n x -> child_of n' x -> n = n'.
Proof.
  intros Hn Hn' (s & Hs & ->) (s' & Hs' & H).
  apply ends_with_slash_spec in Hn, Hn'.
  destruct Hn as [a ->], Hn' as [a' ->].
  rewrite !append_assoc in H. f_equal.
  revert a' H. induction a as [|c a IH]; intros [|c' a'] H; simpl in *.
  - reflexivity.
  - injection H as <- H. now apply one_slash_only in H.
  - injection H as -> H. symmetry in H. now apply one_slash_only in H.
  - injection H as <- H. f_equal. now apply IH.
Qed.

End Strings.

(** ** Directory prefixes of a canonical path *)

Section Prefixes.

Local Open Scope string_scope.

Lemma join_snoc (sep x : string) (l : list string) :
  l <> [] -> Js.join sep (l ++ [x])%list = Js.join sep l ++ sep ++ x.
Proof.
  induction l as [|a l IH]; intros Hne; [congruence|].
  destruct l as [|b l]; [reflexivity|].
  change (Js.join sep ((a :: b :: l) ++ [x])%list)
    with (a ++ sep ++ Js.join sep ((b :: l) ++ [x])%list).
  rewrite IH by discriminate.
  change (Js.join sep (a :: b :: l)) with (a ++ sep ++ Js.join sep (b :: l)).
  now rewrite !append_assoc.
Qed.

Lemma firstn_succ {A : Type} (d : A) (l : list A) (n : nat) :
  n < List.length l -> firstn (S n) l = (firstn n l ++ [nth n l d])%list.
Proof.
  revert n. induction l as [|a l IH]; intros n Hn; simpl in *; [lia|].
  destruct n as [|n]; [reflexivity|].
  simpl. f_equal. apply IH. lia.
Qed.

Lemma part_name_0 (segs : list string) : part_name ("" :: segs) 0 = "/".
Proof. reflexivity. Qed.

Lemma part_name_succ (parts : list string) (k : nat) :
  Forall (fun piece => slash_free piece = true) parts ->
  S k < List.length parts ->
  child_of (part_name parts k) (part_name parts (S k)).
Proof.
  intros Hfree Hk. exists (nth (S k) parts "").
  split.
  - apply (proj1 (Forall_forall _ parts) Hfree). now apply nth_In.
  - unfold part_name, Js.slice_0.
    replace (S k + 1) with (S (S k)) by lia.
    replace (k + 1) with (S k) by lia.
    rewrite (firstn_succ "" parts (S k) Hk).
    rewrite join_snoc.
    + now rewrite !append_assoc.
    + destruct parts; simpl in *; [lia | discriminate].
Qed.

Lemma chain_from (parts : list string) (len k : nat) :
  Forall (fun piece => slash_free piece = true) parts ->
  1 <= k -> k + len <= List.length parts ->
  chain (part_name parts (k - 1)) (map (part_name parts) (seq k len)).
Proof.
  intros Hfree. revert k. induction len as [|len IH]; intros k Hk Hlen.
  - exact I.
  - simpl. split.
    + replace k with (S (k - 1)) at 2 by lia.
      apply part_name_succ; [assumption | lia].
    + replace k with (S k - 1) at 1 by lia. apply IH; lia.
Qed.

Lemma removelast_snoc {A : Type} (l : list A) (x : A) :
  removelast (l ++ [x]) = l.
Proof. rewrite removelast_app by discriminate. simpl. apply app_nil_r. Qed.

(** The [parts] of a canonical path: an empty first piece, then its
    segments; joined again they give back the path. *)
Lemma parts_of_canonical (p : string) :
  canonical p = true ->
  exists segs,
    parts_of p = "" :: segs
    /\ Forall (fun piece => slash_free piece = true) (parts_of p)
    /\ Js.join "/" (parts_of p) ++ "/" = p.
Proof.
  unfold canonical. intros H. apply andb_true_iff in H. destruct H as [Hs He].
  apply ends_with_slash_spec in He. destruct He as [s0 ->].
  unfold parts_of, Js.slice_0_m1. rewrite split_snoc, removelast_snoc.
  rewrite join_split.
  destruct s0 as [|c s0].
  - exists []. repeat split. repeat constructor.
  - simpl in Hs. apply Ascii.eqb_eq in Hs. subst c. simpl.
    exists (Js.split "/" s0). repeat split.
    constructor; [reflexivity | apply split_slash_free].
Qed.

Lemma prefixes_chain (p : string) :
  canonical p = true -> chain "/" (prefixes p).
Proof.
  intros Hp. destruct (parts_of_canonical p Hp) as (segs & Hparts & Hfree & _).
  unfold prefixes, part_indexes.
  rewrite <- (part_name_0 segs), <- Hparts.
  apply (chain_from (parts_of p) (List.length (parts_of p) - 1) 1 Hfree).
  - lia.
  - rewrite Hparts. simpl. lia.
Qed.

Lemma last_map_seq {A : Type} (f : nat -> A) (d : A) (len a : nat) :
  0 < len -> last (map f (seq a len)) d = f (a + len - 1).
Proof.
  revert a. induction len as [|len IH]; intros a Hlen; [lia|].
  destruct len as [|len].
  - simpl. f_equal. lia.
  - change (last (map f (seq a (S (S len)))) d)
      with (last (map f (seq (S a) (S len))) d).
    rewrite IH by lia. f_equal. lia.
Qed.

(** The last name the inner loop computes is the document's own path;
    for the path ["/"] it computes none. *)
Lemma prefixes_last (p : string) :
  canonical p = true -> last (prefixes p) "/" = p.
Proof.
  intros Hp. destruct (parts_of_canonical p Hp) as (segs & Hparts & _ & Hjoin).
  unfold prefixes, part_indexes. rewrite Hparts in *.
  destruct segs as [|seg segs].
  - simpl in *. assumption.
  - rewrite last_map_seq by (simpl; lia).
    rewrite <- Hjoin. unfold part_name, Js.slice_0.
    replace (1 + (List.length ("" :: seg :: segs) - 1) - 1 + 1)
      with (List.length ("" :: seg :: segs)) by (simpl; lia).
    now rewrite firstn_all.
Qed.

Lemma child_of_ends (n x : string) : child_of n x -> ends_with_slash x = true.
Proof.
  intros (seg & _ & ->). apply ends_with_slash_spec.
  exists (n ++ seg). symmetry. apply append_assoc.
Qed.

Lemma chain_under (n : string) (ns : list string) :
  chain n ns -> forall x, In x ns -> under n x /\ x <> n.
Proof.
  revert n. induction ns as [|q later IH]; intros n Hc x Hx; [contradiction|].
  destruct Hc as [Hq Hlater]. destruct Hx as [<-|Hx].
  - split; [now apply child_of_under|].
    intros E. apply child_of_length in Hq. rewrite E in Hq. lia.
  - destruct (IH q Hlater x Hx) as [Hu Hne]. split.
    + eapply under_trans; [apply child_of_under|]; eassumption.
    + intros E. apply child_of_length in Hq. apply under_length in Hu.
      rewrite E in Hu. lia.
Qed.

Lemma last_cons {A : Type} (l : list A) (x d : A) :
  last (x :: l) d = last l x.
Proof.
  revert x d. induction l as [|y l IH]; intros x d; [reflexivity|].
  change (last (x :: y :: l) d) with (last (y :: l) d).
  rewrite IH. symmetry. apply IH.
Qed.

Lemma chain_last_under (n : string) (ns : list string) :
  chain n ns -> under n (last ns n).
Proof.
  revert n. induction ns as [|q later IH]; intros n Hc.
  - apply under_refl.
  - destruct Hc as [Hq Hlater].
    rewrite last_cons.
    eapply under_trans; [apply child_of_under|]; eauto.
Qed.

End Prefixes.

(** ** Lists: searching, updating in place, first occurrences *)

Section Arrays.

Lemma findIndex_Some {A : Type} (p : A -> bool) (l : list A) (i : nat) :
  Js.findIndex p l = Some i ->
  exists l1 c l2,
    l = l1 ++ c :: l2 /\ List.length l1 = i /\ p c = true
    /\ Forall (fun x => p x = false) l1.
Proof.
  revert i. induction l as [|x l IH]; intros i H; simpl in H; [discriminate|].
  destruct (p x) eqn:Hx.
  - injection H as <-. exists [], x, l. repeat split; auto.
  - destruct (Js.findIndex p l) as [j|]; [|discriminate].
    injection H as <-.
    destruct (IH j eq_refl) as (l1 & c & l2 & -> & Hlen & Hc & Hl1).
    exists (x :: l1), c, l2. simpl. repeat split; auto.
Qed.

Lemma findIndex_None {A : Type} (p : A -> bool) (l : list A) :
  Js.findIndex p l = None -> Forall (fun x => p x = false) l.
Proof.
  induction l as [|x l IH]; intros H; simpl in H; [constructor|].
  destruct (p x) eqn:Hx; [discriminate|].
  destruct (Js.findIndex p l); [discriminate|]. constructor; auto.
Qed.

Lemma update_nth_app {A : Type} (f : A -> A) (l1 l2 : list A) (c : A) :
  update_nth (List.length l1) f (l1 ++ c :: l2) = l1 ++ f c :: l2.
Proof. induction l1 as [|x l1 IH]; simpl; [reflexivity | now rewrite IH]. Qed.

Lemma existsb_eqb_In (x : string) (l : list string) :
  existsb (String.eqb x) l = true <-> In x l.
Proof.
  rewrite existsb_exists. split.
  - intros (y & Hy & E). apply String.eqb_eq in E. now subst.
  - intros H. exists x. split; [assumption | apply String.eqb_refl].
Qed.

Lemma fold_push_In (l acc : list string) (x : string) :
  In x (fold_left push_new l acc) <-> In x acc \/ In x l.
Proof.
  revert acc. induction l as [|y l IH]; intros acc; simpl; [tauto|].
  rewrite IH. unfold push_new.
  destruct (existsb (String.eqb y) acc) eqn:E.
  - apply existsb_eqb_In in E. split; [tauto|].
    intros [H|[<-|H]]; auto.
  - rewrite in_app_iff. simpl. tauto.
Qed.

Lemma In_first_occurrences (l : list string) (x : string) :
  In x (first_occurrences l) <-> In x l.
Proof. unfold first_occurrences. rewrite fold_push_In. simpl. tauto. Qed.

Lemma first_occurrences_snoc (l : list string) (x : string) :
  first_occurrences (l ++ [x]) = push_new (first_occurrences l) x.
Proof. unfold first_occurrences. now rewrite fold_left_app. Qed.

Lemma NoDup_fold_push (l acc : list string) :
  NoDup acc -> NoDup (fold_left push_new l acc).
Proof.
  revert acc. induction l as [|y l IH]; intros acc Hacc; simpl; [assumption|].
  apply IH. unfold push_new.
  destruct (existsb (String.eqb y) acc) eqn:E; [assumption|].
  apply NoDup_app; [assumption | repeat constructor; auto |].
  intros z Hz [<-|[]]. apply existsb_eqb_In in Hz. congruence.
Qed.

Lemma NoDup_first_occurrences (l : list string) : NoDup (first_occurrences l).
Proof. apply NoDup_fold_push. constructor. Qed.

Lemma filter_none {A : Type} (p : A -> bool) (l : list A) :
  (forall x, In x l -> p x = false) -> filter p l = [].
Proof.
  induction l as [|x l IH]; intros H; simpl; [reflexivity|].
  rewrite (H x) by now left. apply IH. intros y Hy. apply H. now right.
Qed.

End Arrays.

(** ** Trees *)

Section Trees.

Lemma Item_induction (P : Item -> Prop) :
  (forall n d cs, Forall P cs -> P (mkItem n d cs)) -> forall t, P t.
Proof.
  intros H. fix IH 1. intros [n d cs]. apply H.
  induction cs as [|c cs IHcs]; constructor; [apply IH | assumption].
Qed.

Lemma every_node_unfold (P : Item -> Prop) n d cs :
  every_node P (mkItem n d cs)
  <-> P (mkItem n d cs) /\ Forall (every_node P) cs.
Proof.
  unfold every_node. simpl. rewrite Forall_cons_iff, Forall_flat_map. tauto.
Qed.

Lemma nodes_self (t : Item) : In t (nodes t).
Proof. destruct t. now left. Qed.

Lemma nodes_child (t c m : Item) :
  In c (children t) -> In m (nodes c) -> In m (nodes t).
Proof.
  destruct t as [n d cs]. simpl. intros Hc Hm. right.
  apply in_flat_map. eauto.
Qed.

(** The nodes of a tree are closed under taking children. *)
Lemma nodes_children (t : Item) :
  forall m c, In m (nodes t) -> In c (children m) -> In c (nodes t).
Proof.
  induction t as [n d cs IH] using Item_induction. intros m c Hm Hc.
  destruct Hm as [<-|Hm].
  - apply nodes_child with c; [assumption | apply nodes_self].
  - apply in_flat_map in Hm. destruct Hm as (c' & Hc' & Hm).
    apply nodes_child with c'; [assumption|].
    rewrite Forall_forall in IH. eapply IH; eauto.
Qed.

(** A node of a tree is the root or a child of a node of the tree. *)
Lemma nodes_parent (t : Item) :
  forall m, In m (nodes t) ->
            m = t \/ exists parent, In parent (nodes t) /\ In m (children parent).
Proof.
  induction t as [n d cs IH] using Item_induction. intros m Hm.
  destruct Hm as [<-|Hm]; [now left | right].
  apply in_flat_map in Hm. destruct Hm as (c & Hc & Hm).
  rewrite Forall_forall in IH. destruct (IH c Hc m Hm) as [->|(parent & Hp & Hin)].
  - exists (mkItem n d cs). split; [now left | assumption].
  - exists parent. split; [|assumption].
    apply nodes_child with c; assumption.
Qed.

Lemma item_name_descend parts idxs d ctx :
  item_name (descend parts idxs d ctx) = item_name ctx.
Proof.
  destruct idxs as [|k later]; simpl; [reflexivity|].
  now destruct (Js.findIndex _ _).
Qed.

End Trees.

(** ** The invariant is kept by one run of the inner loop *)

Section Invariant.

Variables (V : list string) (D : string -> Data).

Lemma node_ok_child (m c : Item) :
  node_ok V D m -> In c (children m) ->
  child_of (item_name m) (item_name c) /\ In (item_name c) V.
Proof.
  intros [Hkids _] Hc.
  assert (Hin : In (item_name c) (map item_name (children m)))
    by now apply in_map.
  rewrite Hkids in Hin. apply In_first_occurrences, filter_In in Hin.
  destruct Hin as [HV Hb]. now apply child_ofb_spec in Hb.
Qed.

(** Every path in a subtree starts with the path of the subtree's root
    and, below the root, is longer. *)
Lemma subtree_under (t : Item) :
  every_node (node_ok V D) t ->
  forall m, In m (nodes t) ->
            under (item_name t) (item_name m)
            /\ (m = t \/ String.length (item_name t) < String.length (item_name m)).
Proof.
  induction t as [n d cs IH] using Item_induction.
  intros Hok m Hm. apply every_node_unfold in Hok. destruct Hok as [Hn Hcs].
  destruct Hm as [<-|Hm]; [split; [apply under_refl | now left]|].
  apply in_flat_map in Hm. destruct Hm as (c & Hc & Hm).
  rewrite Forall_forall in IH, Hcs.
  destruct (IH c Hc (Hcs c Hc) m Hm) as [Hu Hlen].
  destruct (node_ok_child _ c Hn Hc) as [Hchild _]. simpl in Hchild.
  pose proof (child_of_length _ _ Hchild) as Hl.
  split.
  - eapply under_trans; [apply child_of_under|]; eassumption.
  - right. simpl. destruct Hlen as [->|Hlen]; [assumption | lia].
Qed.

(** Paths that concern no node of a subtree leave it as it is. *)
Lemma node_ok_extend (X : list string) (k : string) (d : Data) (t : Item) :
  every_node (node_ok V D) t ->
  (forall m x, In m (nodes t) -> In x X -> child_ofb (item_name m) x = false) ->
  (forall m, In m (nodes t) -> item_name m <> k) ->
  every_node (node_ok (V ++ X) (upd D k d)) t.
Proof.
  unfold every_node. rewrite !Forall_forall. intros Hok HX Hk m Hm.
  destruct (Hok m Hm) as [Hkids Hdata]. split.
  - rewrite filter_app, (filter_none _ X), app_nil_r; [assumption|].
    intros x Hx. now apply HX.
  - unfold upd. now rewrite (proj2 (String.eqb_neq _ _) (Hk m Hm)).
Qed.

(** A subtree beside the walked path is not concerned. *)
Lemma beside_path (n q target : string) (pre later : list string)
    (d : Data) (c : Item) :
  child_of n q -> child_of n (item_name c) -> item_name c <> q ->
  (forall p, In p pre -> String.length p <= String.length n) ->
  chain q later -> under q target ->
  every_node (node_ok V D) c ->
  every_node (node_ok (V ++ pre ++ q :: later) (upd D target d)) c.
Proof.
  intros Hq Hc Hne Hpre Hchain Htarget Hok.
  apply node_ok_extend; [assumption | |].
  - intros m x Hm Hx.
    destruct (subtree_under c Hok m Hm) as [Hu _].
    destruct (child_ofb (item_name m) x) eqn:E; [exfalso | reflexivity].
    apply child_ofb_spec in E.
    apply in_app_iff in Hx. destruct Hx as [Hx|Hx].
    + apply Hpre in Hx. apply child_of_length in E, Hc.
      apply under_length in Hu. lia.
    + apply Hne. apply (child_cone n (item_name c) q x); try assumption.
      * eapply under_trans; [eassumption | now apply child_of_under].
      * destruct Hx as [<-|Hx]; [apply under_refl|].
        now apply (chain_under q later Hchain).
  - intros m Hm E. destruct (subtree_under c Hok m Hm) as [Hu _].
    apply Hne. apply (child_cone n (item_name c) q target); try assumption.
    now rewrite <- E.
Qed.

Lemma descend_cons parts k later d ctx :
  descend parts (k :: later) d ctx
  = match Js.findIndex (fun c => String.eqb (item_name c) (part_name parts k))
                       (children ctx) with
    | Some i =>
        mkItem (item_name ctx) (item_data ctx)
               (update_nth i (descend parts later d) (children ctx))
    | None =>
        mkItem (item_name ctx) (item_data ctx)
               (children ctx
                ++ [descend parts later d
                      (mkItem (part_name parts k) emptyData [])])
    end.
Proof. reflexivity. Qed.

(** A name that is not among the children was never visited, so
    nothing below it was, and no document has it. *)
Lemma fresh_child (n q : string) (cs : list Item) (d0 : Data) :
  closed V -> supported D V ->
  ends_with_slash n = true -> child_of n q ->
  node_ok V D (mkItem n d0 cs) ->
  Forall (fun c => String.eqb (item_name c) q = false) cs ->
  every_node (node_ok V D) (mkItem q emptyData []).
Proof.
  intros Hclosed Hsupp Hend Hq [Hkids _] Hnone. simpl in Hkids.
  assert (HqV : ~ In q V).
  { intros HV.
    assert (Hin : In q (map item_name cs)).
    { rewrite Hkids. apply In_first_occurrences, filter_In.
      split; [assumption | now apply child_ofb_spec]. }
    apply in_map_iff in Hin. destruct Hin as (c & Hc & Hin).
    rewrite Forall_forall in Hnone. apply Hnone in Hin.
    rewrite Hc, String.eqb_refl in Hin. discriminate. }
  assert (Hroot : q <> "/").
  { intros E. apply child_of_length in Hq. rewrite E in Hq.
    destruct n; simpl in *; [discriminate | lia]. }
  apply every_node_unfold. split; [|constructor]. split; simpl.
  - rewrite filter_none; [reflexivity|]. intros x Hx.
    destruct (child_ofb q x) eqn:E; [exfalso | reflexivity].
    apply child_ofb_spec in E.
    destruct (Hclosed x q Hx (child_of_ends _ _ Hq) E); contradiction.
  - symmetry. now apply Hsupp.
Qed.

(** The inner loop and the assignment after it, on a subtree that
    satisfies the invariant for [V] and [D]: the result satisfies it
    for [V] followed by the names of this document and for [D] updated
    at the document's path.  [pre] are the names computed before the
    loop reached this subtree. *)
Lemma descend_ok (parts : list string) (d : Data) :
  closed V -> supported D V ->
  forall idxs pre ctx,
    chain (item_name ctx) (map (part_name parts) idxs) ->
    ends_with_slash (item_name ctx) = true ->
    (forall p, In p pre ->
               String.length p <= String.length (item_name ctx)) ->
    every_node (node_ok V D) ctx ->
    every_node
      (node_ok (V ++ pre ++ map (part_name parts) idxs)
         (upd D (last (map (part_name parts) idxs) (item_name ctx)) d))
      (descend parts idxs d ctx).
Proof.
  intros Hclosed Hsupp.
  induction idxs as [|k later IH]; intros pre [n d0 cs] Hchain Hend Hpre Hok;
    pose proof Hok as Hok0;
    apply every_node_unfold in Hok; destruct Hok as [Hn Hcs];
    pose proof Hn as [Hkids Hdata]; simpl in Hkids, Hdata, Hpre, Hend.
  - (* the assignment [context.data = data] *)
    simpl. unfold set_data. simpl. rewrite app_nil_r.
    assert (Hnopre : filter (child_ofb n) pre = []).
    { apply filter_none. intros x Hx.
      destruct (child_ofb n x) eqn:E; [exfalso | reflexivity].
      apply child_ofb_spec, child_of_length in E. apply Hpre in Hx. lia. }
    apply every_node_unfold. split.
    + split; simpl.
      * now rewrite filter_app, Hnopre, app_nil_r.
      * unfold upd. now rewrite String.eqb_refl.
    + rewrite Forall_forall in *. intros c Hc.
      destruct (node_ok_child _ c Hn Hc) as [Hch _]. simpl in Hch.
      apply child_of_length in Hch.
      apply node_ok_extend; [now apply Hcs | |].
      * intros m x Hm Hx.
        destruct (subtree_under c (Hcs c Hc) m Hm) as [Hu _].
        apply under_length in Hu. apply Hpre in Hx.
        destruct (child_ofb (item_name m) x) eqn:E; [exfalso | reflexivity].
        apply child_ofb_spec, child_of_length in E. lia.
      * intros m Hm E.
        destruct (subtree_under c (Hcs c Hc) m Hm) as [Hu _].
        apply under_length in Hu. rewrite E in Hu. lia.
  - (* one iteration *)
    rewrite descend_cons. simpl map in *. simpl item_name in *.
    simpl children. simpl item_data.
    destruct Hchain as [Hq Hlater].
    remember (part_name parts k) as q eqn:Eq.
    remember (map (part_name parts) later) as ns eqn:Ens.
    rewrite last_cons.
    pose proof (chain_last_under q ns Hlater) as Htarget.
    pose proof (child_of_length _ _ Hq) as Hlen.
    assert (Hself : filter (child_ofb n) (V ++ pre ++ q :: ns)
                    = filter (child_ofb n) V ++ [q]).
    { rewrite !filter_app. simpl.
      rewrite (proj2 (child_ofb_spec n q) Hq).
      rewrite (filter_none _ pre), (filter_none _ ns); [reflexivity | |].
      - intros x Hx.
        destruct (child_ofb n x) eqn:E; [exfalso | reflexivity].
        apply child_ofb_spec in E.
        destruct (chain_under q ns Hlater x Hx) as [Hu Hne].
        apply Hne. symmetry.
        apply (child_cone n q x x); auto using under_refl.
      - intros x Hx.
        destruct (child_ofb n x) eqn:E; [exfalso | reflexivity].
        apply child_ofb_spec, child_of_length in E. apply Hpre in Hx. lia. }
    assert (Hdata' : upd D (last ns q) d n = D n).
    { unfold upd. destruct (String.eqb_spec n (last ns q)) as [E|]; [|reflexivity].
      apply under_length in Htarget. rewrite <- E in Htarget. lia. }
    assert (Hbeside : forall c, In c cs -> item_name c <> q ->
              every_node (node_ok (V ++ pre ++ q :: ns) (upd D (last ns q) d)) c).
    { intros c Hc Hne. rewrite Forall_forall in Hcs.
      destruct (node_ok_child _ c Hn Hc) as [Hch _].
      apply beside_path with (n := n); auto. }
    assert (Hpre' : forall p, In p (pre ++ [q]) ->
                              String.length p <= String.length q).
    { intros p Hp. apply in_app_iff in Hp. destruct Hp as [Hp|[<-|[]]].
      - apply Hpre in Hp. lia.
      - lia. }
    destruct (Js.findIndex _ cs) as [i|] eqn:Hfind.
    + (* the child exists *)
      destruct (findIndex_Some _ _ _ Hfind)
        as (l1 & c & l2 & -> & <- & Hc & Hl1).
      apply String.eqb_eq in Hc.
      rewrite update_nth_app.
      assert (Hnodup : NoDup (map item_name (l1 ++ c :: l2))).
      { rewrite Hkids. apply NoDup_first_occurrences. }
      rewrite map_app in Hnodup. simpl in Hnodup.
      apply NoDup_remove_2 in Hnodup. rewrite in_app_iff in Hnodup.
      apply every_node_unfold. split.
      * split; simpl; [|now rewrite Hdata'].
        rewrite Hself, first_occurrences_snoc. unfold push_new.
        rewrite (proj2 (existsb_eqb_In q _)).
        -- rewrite <- Hkids, !map_app. simpl. now rewrite item_name_descend.
        -- rewrite <- Hkids, <- Hc. apply in_map, in_elt.
      * apply Forall_app. split; [|constructor].
        -- rewrite Forall_forall in *. intros c' Hc'.
           apply Hbeside; [apply in_or_app; now left|].
           apply String.eqb_neq. now apply Hl1.
        -- specialize (IH (pre ++ [q]) c). rewrite Hc in IH.
           rewrite <- app_assoc in IH. simpl in IH.
           apply IH; auto.
           ++ now apply child_of_ends with n.
           ++ rewrite Forall_forall in Hcs. apply Hcs, in_elt.
        -- rewrite Forall_forall. intros c' Hc'.
           apply Hbeside; [apply in_or_app; right; now right|].
           rewrite <- Hc. intros E. apply Hnodup. right.
           rewrite <- E. now apply in_map.
    + (* the child is created *)
      apply findIndex_None in Hfind.
      apply every_node_unfold. split.
      * split; simpl; [|now rewrite Hdata'].
        rewrite Hself, first_occurrences_snoc. unfold push_new.
        destruct (existsb (String.eqb q) _) eqn:E.
        -- exfalso. apply existsb_eqb_In in E. rewrite <- Hkids in E.
           apply in_map_iff in E. destruct E as (c & Hc & Hin).
           rewrite Forall_forall in Hfind. apply Hfind in Hin.
           rewrite Hc, String.eqb_refl in Hin. discriminate.
        -- rewrite <- Hkids, map_app. simpl. now rewrite item_name_descend.
      * apply Forall_app. split; [|constructor; [|constructor]].
        -- rewrite Forall_forall in *. intros c' Hc'.
           apply Hbeside; [assumption|].
           apply String.eqb_neq. now apply Hfind.
        -- specialize (IH (pre ++ [q]) (mkItem q emptyData [])).
           rewrite <- app_assoc in IH. simpl in IH.
           apply IH; auto.
           ++ now apply child_of_ends with n.
           ++ now apply fresh_child with n cs d0.
Qed.

End Invariant.

(** ** The invariant holds after every document *)

Section Fold.

Lemma navTree_snoc (allInfo : list Info) (info : Info) :
  navTree (allInfo ++ [info]) = add_document (navTree allInfo) info.
Proof. unfold navTree. now rewrite fold_left_app. Qed.

Lemma visited_snoc (allInfo : list Info) (info : Info) :
  visited (allInfo ++ [info])
  = visited allInfo ++ (if excluded info then [] else prefixes (name info)).
Proof. unfold visited. rewrite flat_map_app. simpl. now rewrite app_nil_r. Qed.

Lemma data_for_snoc (allInfo : list Info) (info : Info) (x : string) :
  data_for (allInfo ++ [info]) x
  = if excluded info then data_for allInfo x
    else upd (data_for allInfo) (name info) (data info) x.
Proof.
  unfold data_for, last_document, upd. rewrite rev_app_distr. simpl.
  destruct (excluded info); simpl; [reflexivity|].
  rewrite (String.eqb_sym x). now destruct (String.eqb (name info) x).
Qed.

Lemma item_name_navTree (allInfo : list Info) : item_name (navTree allInfo) = "/".
Proof.
  induction allInfo as [|info allInfo IH] using rev_ind; [reflexivity|].
  rewrite navTree_snoc. unfold add_document.
  destruct (Js.truthy _); [assumption|]. now rewrite item_name_descend.
Qed.

Lemma chain_closed (n : string) (ns : list string) :
  chain n ns -> ends_with_slash n = true ->
  forall x q, In x ns -> ends_with_slash q = true -> child_of q x ->
              q = n \/ In q ns.
Proof.
  revert n. induction ns as [|q0 later IH]; intros n Hc Hn x q Hx Hq Hchild;
    [contradiction|].
  destruct Hc as [Hq0 Hlater]. destruct Hx as [<-|Hx].
  - left. now apply parent_unique with q0.
  - right. destruct (IH q0 Hlater (child_of_ends _ _ Hq0) x q Hx Hq Hchild)
      as [->|Hin]; [now left | now right].
Qed.

Lemma visited_In (allInfo : list Info) (x : string) :
  In x (visited allInfo) <->
  exists info, In info allInfo /\ excluded info = false
               /\ In x (prefixes (name info)).
Proof.
  unfold visited. rewrite in_flat_map. split.
  - intros (info & Hin & Hx). exists info.
    destruct (excluded info); [contradiction | auto].
  - intros (info & Hin & He & Hx). exists info. now rewrite He.
Qed.

Lemma visited_closed (allInfo : list Info) :
  canonical_paths allInfo -> closed (visited allInfo).
Proof.
  intros Hwf x q Hx Hq Hchild.
  apply visited_In in Hx. destruct Hx as (info & Hin & He & Hx).
  unfold canonical_paths in Hwf. rewrite Forall_forall in Hwf.
  destruct (chain_closed "/" (prefixes (name info))
              (prefixes_chain _ (Hwf info Hin)) eq_refl x q Hx Hq Hchild)
    as [->|Hq']; [now left | right].
  apply visited_In. eauto.
Qed.

Lemma last_In {A : Type} (l : list A) (d : A) : l <> [] -> In (last l d) l.
Proof.
  induction l as [|x l IH]; intros Hne; [congruence|].
  destruct l as [|y l]; [now left|].
  right. apply IH. discriminate.
Qed.

(** The path of a document that is not excluded is visited, unless it
    is the root's. *)
Lemma name_visited (allInfo : list Info) (info : Info) :
  canonical_paths allInfo -> In info allInfo -> excluded info = false ->
  name info = "/" \/ In (name info) (visited allInfo).
Proof.
  intros Hwf Hin He.
  unfold canonical_paths in Hwf. rewrite Forall_forall in Hwf.
  pose proof (prefixes_last _ (Hwf info Hin)) as Hlast.
  destruct (prefixes (name info)) as [|q later] eqn:E.
  - left. now rewrite <- Hlast.
  - right. apply visited_In. exists info. repeat split; auto.
    rewrite E, <- Hlast. apply last_In. discriminate.
Qed.

Lemma last_document_Some (allInfo : list Info) (p : string) (info : Info) :
  last_document p allInfo = Some info ->
  In info allInfo /\ excluded info = false /\ name info = p.
Proof.
  unfold last_document. intros H. apply find_some in H.
  destruct H as [Hin H]. apply andb_true_iff in H. destruct H as [He Hn].
  apply negb_true_iff in He. apply String.eqb_eq in Hn.
  now rewrite <- in_rev in Hin.
Qed.

Lemma data_for_supported (allInfo : list Info) :
  canonical_paths allInfo -> supported (data_for allInfo) (visited allInfo).
Proof.
  intros Hwf x Hroot Hx. unfold data_for.
  destruct (last_document x allInfo) as [info|] eqn:E; [exfalso | reflexivity].
  apply last_document_Some in E. destruct E as (Hin & He & <-).
  destruct (name_visited allInfo info Hwf Hin He); contradiction.
Qed.

Lemma node_ok_ext (V : list string) (D D' : string -> Data) (t : Item) :
  (forall x, D x = D' x) ->
  every_node (node_ok V D) t -> every_node (node_ok V D') t.
Proof.
  intros HD. unfold every_node. apply Forall_impl.
  intros m [Hkids Hdata]. split; [assumption | now rewrite <- HD].
Qed.

(** The invariant of the outer loop: after any number of documents the
    root has path ["/"], the children of every node are the visited
    paths one level below it in the order of their first visit, and
    every node carries the metadata of the last document of its path
    that is not excluded, or [{}] if there is none. *)
Theorem navTree_invariant (allInfo : list Info) :
  canonical_paths allInfo ->
  every_node (node_ok (visited allInfo) (data_for allInfo)) (navTree allInfo).
Proof.
  induction allInfo as [|info allInfo IH] using rev_ind; intros Hwf.
  - apply every_node_unfold. split; [|constructor]. now split.
  - unfold canonical_paths in Hwf. apply Forall_app in Hwf.
    destruct Hwf as [Hwf Hinfo]. specialize (IH Hwf).
    apply Forall_inv in Hinfo.
    rewrite navTree_snoc, visited_snoc.
    apply node_ok_ext
      with (D := if excluded info then data_for allInfo
                 else upd (data_for allInfo) (name info) (data info)).
    { intros x. rewrite data_for_snoc. now destruct (excluded info). }
    unfold add_document. fold (excluded info).
    destruct (excluded info); [now rewrite app_nil_r|].
    pose proof (descend_ok (visited allInfo) (data_for allInfo)
                  (parts_of (name info)) (data info)
                  (visited_closed _ Hwf) (data_for_supported _ Hwf)
                  (part_indexes (parts_of (name info))) [] (navTree allInfo))
      as H.
    rewrite item_name_navTree in H. fold (prefixes (name info)) in H.
    rewrite (prefixes_last _ Hinfo) in H.
    apply H; auto.
    + now apply prefixes_chain.
    + intros p [].
Qed.

End Fold.

(** ** Which nodes the tree has *)

Section Nodes.

Variable allInfo : list Info.
Hypothesis Hwf : canonical_paths allInfo.

Lemma node_ok_navTree (n : Item) :
  In n (nodes (navTree allInfo)) ->
  node_ok (visited allInfo) (data_for allInfo) n.
Proof.
  intros Hn. pose proof (navTree_invariant allInfo Hwf) as Hinv.
  unfold every_node in Hinv. rewrite Forall_forall in Hinv. now apply Hinv.
Qed.

(** Every visited path one level below a node is among its children. *)
Lemma child_present (m : Item) (q : string) :
  In m (nodes (navTree allInfo)) ->
  child_of (item_name m) q -> In q (visited allInfo) ->
  exists c, In c (children m) /\ item_name c = q.
Proof.
  intros Hm Hq HV. destruct (node_ok_navTree m Hm) as [Hkids _].
  assert (Hin : In q (map item_name (children m))).
  { rewrite Hkids. apply In_first_occurrences, filter_In.
    split; [assumption | now apply child_ofb_spec]. }
  apply in_map_iff in Hin. destruct Hin as (c & Hc & Hin). eauto.
Qed.

Lemma chain_present (ns : list string) :
  forall m, In m (nodes (navTree allInfo)) ->
            chain (item_name m) ns ->
            (forall x, In x ns -> In x (visited allInfo)) ->
            forall x, In x ns ->
                      exists n, In n (nodes (navTree allInfo)) /\ item_name n = x.
Proof.
  induction ns as [|q later IH]; intros m Hm Hchain HV x Hx; [contradiction|].
  destruct Hchain as [Hq Hlater].
  destruct (child_present m q Hm Hq (HV q (or_introl eq_refl)))
    as (c & Hc & Hname).
  pose proof (nodes_children _ m c Hm Hc) as Hcn.
  destruct Hx as [<-|Hx]; [eauto|].
  apply (IH c Hcn); auto.
  - now rewrite Hname.
  - intros y Hy. apply HV. now right.
Qed.

(** Completeness: every visited path has a node. *)
Lemma visited_present (x : string) :
  In x (visited allInfo) ->
  exists n, In n (nodes (navTree allInfo)) /\ item_name n = x.
Proof.
  intros Hx. pose proof Hx as Hx'. apply visited_In in Hx'.
  destruct Hx' as (info & Hin & He & Hpre).
  pose proof Hwf as Hcan.
  unfold canonical_paths in Hcan. rewrite Forall_forall in Hcan.
  apply (chain_present (prefixes (name info)) (navTree allInfo)); auto.
  - apply nodes_self.
  - rewrite item_name_navTree. apply prefixes_chain. now apply Hcan.
  - intros y Hy. apply visited_In. eauto.
Qed.

(** Soundness: every node but the root has a visited path. *)
Lemma node_visited (n : Item) :
  In n (nodes (navTree allInfo)) ->
  n = navTree allInfo \/ In (item_name n) (visited allInfo).
Proof.
  intros Hn. destruct (nodes_parent _ n Hn) as [->|(parent & Hp & Hc)];
    [now left | right].
  now destruct (node_ok_child _ _ parent n (node_ok_navTree parent Hp) Hc).
Qed.

End Nodes.

(** ** No two nodes share a path *)

Section Distinct.

Variables (V : list string) (D : string -> Data).

Lemma node_names_NoDup (t : Item) :
  every_node (node_ok V D) t -> NoDup (map item_name (nodes t)).
Proof.
  induction t as [n d cs IH] using Item_induction. intros Hok.
  pose proof (subtree_under V D _ Hok) as Hunder.
  apply every_node_unfold in Hok. destruct Hok as [Hn Hcs].
  simpl. constructor.
  - intros Hin. apply in_map_iff in Hin. destruct Hin as (m & Hname & Hm).
    destruct (Hunder m (or_intror Hm)) as [_ [->|Hlen]].
    + apply in_flat_map in Hm. destruct Hm as (c & Hc & Hm).
      rewrite Forall_forall in Hcs.
      destruct (subtree_under V D c (Hcs c Hc) _ Hm) as [Hu _].
      destruct (node_ok_child V D _ c Hn Hc) as [Hch _].
      apply child_of_length in Hch. apply under_length in Hu.
      simpl in *. lia.
    + simpl in Hlen. rewrite Hname in Hlen. lia.
  - assert (Hsib : NoDup (map item_name cs)).
    { destruct Hn as [Hkids _]. simpl in Hkids. rewrite Hkids.
      apply NoDup_first_occurrences. }
    assert (Hch : forall c, In c cs -> child_of n (item_name c)).
    { intros c Hc. now destruct (node_ok_child V D _ c Hn Hc). }
    clear Hn Hunder. induction cs as [|c cs IHcs]; simpl; [constructor|].
    inversion IH as [|? ? IHc IHrest]; subst.
    inversion Hcs as [|? ? Hc Hrest]; subst.
    inversion Hsib as [|? ? Hnotin Hsib']; subst.
    rewrite map_app. apply NoDup_app.
    + now apply IHc.
    + apply IHcs; auto. intros c' Hc'. apply Hch. now right.
    + intros x Hx Hx'.
      apply in_map_iff in Hx. destruct Hx as (m & <- & Hm).
      apply in_map_iff in Hx'. destruct Hx' as (m' & E & Hm').
      apply in_flat_map in Hm'. destruct Hm' as (c' & Hc' & Hm').
      destruct (subtree_under V D c Hc m Hm) as [Hu _].
      rewrite Forall_forall in Hrest.
      destruct (subtree_under V D c' (Hrest c' Hc') m' Hm') as [Hu' _].
      rewrite E in Hu'. apply Hnotin.
      rewrite (child_cone n (item_name c) (item_name c') (item_name m)); auto.
      * now apply in_map.
      * apply Hch. now left.
      * apply Hch. now right.
Qed.

Lemma NoDup_map_eq {A B : Type} (f : A -> B) (l : list A) (a b : A) :
  NoDup (map f l) -> In a l -> In b l -> f a = f b -> a = b.
Proof.
  induction l as [|x l IH]; intros Hnd Ha Hb E; [contradiction|].
  simpl in Hnd. inversion Hnd as [|? ? Hnotin Hnd']; subst.
  destruct Ha as [->|Ha], Hb as [->|Hb]; auto.
  - exfalso. apply Hnotin. rewrite E. now apply in_map.
  - exfalso. apply Hnotin. rewrite <- E. now apply in_map.
Qed.

End Distinct.

(** In the navigation tree a path names at most one node. *)
Lemma navTree_node_unique (allInfo : list Info) (n n' : Item) :
  canonical_paths allInfo ->
  In n (nodes (navTree allInfo)) -> In n' (nodes (navTree allInfo)) ->
  item_name n = item_name n' -> n = n'.
Proof.
  intros Hwf. apply NoDup_map_eq.
  apply node_names_NoDup with (visited allInfo) (data_for allInfo).
  now apply navTree_invariant.
Qed.

(** ** Documents and their nodes *)

Section Documents.

Lemma find_app_none {A : Type} (p : A -> bool) (l1 l2 : list A) :
  (forall x, In x l1 -> p x = false) -> find p (l1 ++ l2) = find p l2.
Proof.
  induction l1 as [|x l1 IH]; intros H; simpl; [reflexivity|].
  rewrite (H x) by now left. apply IH. intros y Hy. apply H. now right.
Qed.

Lemma last_document_own (before after : list Info) (info : Info) :
  excluded info = false ->
  (forall d, In d after -> excluded d = false -> name d <> name info) ->
  last_document (name info) (before ++ info :: after) = Some info.
Proof.
  intros He Hafter. unfold last_document.
  rewrite rev_app_distr. simpl. rewrite <- app_assoc. simpl.
  rewrite find_app_none.
  - simpl. now rewrite He, String.eqb_refl.
  - intros d Hd. apply in_rev in Hd.
    destruct (excluded d) eqn:E; [reflexivity|]. simpl.
    apply String.eqb_neq. now apply Hafter.
Qed.

Lemma last_document_exists (allInfo : list Info) (info : Info) :
  In info allInfo -> excluded info = false ->
  exists last, last_document (name info) allInfo = Some last.
Proof.
  intros Hin He. unfold last_document.
  destruct (find _ (rev allInfo)) as [last|] eqn:E; [eauto|].
  apply find_none with (x := info) in E; [|now apply in_rev in Hin].
  now rewrite He, String.eqb_refl in E.
Qed.

Lemma chain_under_last (n : string) (ns : list string) :
  chain n ns -> forall x, In x ns -> under x (last ns n).
Proof.
  revert n. induction ns as [|q later IH]; intros n Hc x Hx; [contradiction|].
  destruct Hc as [Hq Hlater]. rewrite last_cons. destruct Hx as [<-|Hx].
  - now apply chain_last_under.
  - now apply IH.
Qed.

(** Each name the inner loop computes is a prefix of the document's
    path, ends with ["/"], and is not the root's path. *)
Lemma prefixes_spec (p q : string) :
  canonical p = true -> In q (prefixes p) ->
  under q p /\ ends_with_slash q = true /\ q <> "/".
Proof.
  intros Hp Hq. pose proof (prefixes_chain p Hp) as Hchain.
  repeat split.
  - rewrite <- (prefixes_last p Hp). now apply chain_under_last.
  - clear Hp. revert Hq Hchain. generalize "/"%string.
    induction (prefixes p) as [|q0 later IH]; intros n Hq Hchain;
      [contradiction|].
    destruct Hchain as [Hq0 Hlater]. destruct Hq as [<-|Hq].
    + now apply child_of_ends with n.
    + now apply IH with q0.
  - now apply (chain_under "/" (prefixes p) Hchain).
Qed.

End Documents.

(* ================================================================ *)
(** * The navigation tree and the documents *)

(** The path of the last document of its path that is not excluded has
    a node with the metadata of that document; for ["/"] it is the
    root. *)
Lemma path_has_node (allInfo : list Info) (p : string) (last : Info) :
  canonical_paths allInfo ->
  last_document p allInfo = Some last ->
  exists n,
    In n (nodes (navTree allInfo))
    /\ item_name n = p
    /\ item_data n = data last
    /\ (p = "/" -> n = navTree allInfo).
Proof.
  intros Hwf Hlast. pose proof Hlast as Hl.
  apply last_document_Some in Hl. destruct Hl as (Hin & He & Hname).
  assert (Hnode : exists n, In n (nodes (navTree allInfo))
                            /\ item_name n = p
                            /\ (p = "/" -> n = navTree allInfo)).
  { destruct (String.eqb_spec p "/") as [E|E].
    - exists (navTree allInfo). rewrite item_name_navTree.
      repeat split; auto using nodes_self.
    - destruct (name_visited allInfo last Hwf Hin He) as [|HV];
        [congruence|].
      destruct (visited_present allInfo Hwf _ HV) as (n & Hn & Hnm).
      exists n. repeat split; auto; [congruence | contradiction]. }
  destruct Hnode as (n & Hn & Hnm & Hroot).
  exists n. repeat split; auto.
  destruct (node_ok_navTree allInfo Hwf n Hn) as [_ Hdata].
  rewrite Hdata, Hnm. unfold data_for. now rewrite Hlast.
Qed.

(** C1, as amended.  Every document that is not excluded has a node
    whose path is the document's path; the node carries the metadata of
    the last document of that path that is not excluded, which is the
    document's own metadata when no later document that is not excluded
    has the same path; for the path ["/"] the node is the root. *)
Theorem document_has_node (allInfo : list Info) (info : Info) :
  canonical_paths allInfo -> In info allInfo -> excluded info = false ->
  exists n last,
    In n (nodes (navTree allInfo))
    /\ item_name n = name info
    /\ last_document (name info) allInfo = Some last
    /\ item_data n = data last
    /\ (name info = "/" -> n = navTree allInfo)
    /\ (forall before after,
          allInfo = before ++ info :: after ->
          (forall d, In d after -> excluded d = false ->
                     name d <> name info) ->
          item_data n = data info).
Proof.
  intros Hwf Hin He.
  destruct (last_document_exists allInfo info Hin He) as [last Hlast].
  destruct (path_has_node allInfo (name info) last Hwf Hlast)
    as (n & Hn & Hname & Hdata & Hroot).
  exists n, last. repeat split; auto.
  intros before after -> Hafter.
  rewrite (last_document_own before after info He Hafter) in Hlast.
  congruence.
Qed.

Lemma document_has_node_witness :
  exists n last,
    In n (nodes (navTree [doc "/" (meta_of "home"); doc "/a/" (meta_of "a")]))
    /\ item_name n = "/"
    /\ last_document "/" [doc "/" (meta_of "home"); doc "/a/" (meta_of "a")]
       = Some last
    /\ item_data n = data last
    /\ ("/" = "/" ->
        n = navTree [doc "/" (meta_of "home"); doc "/a/" (meta_of "a")])
    /\ (forall before after,
          [doc "/" (meta_of "home"); doc "/a/" (meta_of "a")]
          = before ++ doc "/" (meta_of "home") :: after ->
          (forall d, In d after -> excluded d = false -> name d <> "/") ->
          item_data n = meta_of "home").
Proof.
  apply (document_has_node
           [doc "/" (meta_of "home"); doc "/a/" (meta_of "a")]
           (doc "/" (meta_of "home"))).
  - repeat constructor.
  - simpl. now left.
  - reflexivity.
Defined.

(** C1 as stated fails when two documents that are not excluded share
    a path: the first of them has no node with its own metadata. *)
Lemma document_has_node_counterexample :
  let first := doc "/x/" (meta_of "one") in
  let allInfo := [first; doc "/x/" (meta_of "two")] in
  In first allInfo /\ excluded first = false
  /\ ~ exists n, In n (nodes (navTree allInfo))
                 /\ item_name n = name first /\ item_data n = data first.
Proof.
  simpl. repeat split; auto.
  intros (n & [<-|[<-|[]]] & Hname & Hdata); discriminate.
Qed.

(** C2, as amended.  A path other than ["/"] that is neither the path
    nor a directory prefix of a document that is not excluded has no
    node: excluded documents create no nodes.  (The root exists for
    every input.) *)
Theorem excluded_paths_have_no_node (allInfo : list Info) (p : string) :
  canonical_paths allInfo -> p <> "/" ->
  (forall info, In info allInfo -> excluded info = false ->
                ~ In p (prefixes (name info))) ->
  forall n, In n (nodes (navTree allInfo)) -> item_name n <> p.
Proof.
  intros Hwf Hroot Hp n Hn E.
  destruct (node_visited allInfo Hwf n Hn) as [->|HV].
  - rewrite item_name_navTree in E. congruence.
  - rewrite E in HV. apply visited_In in HV.
    destruct HV as (info & Hin & He & Hpre). exact (Hp info Hin He Hpre).
Qed.

Lemma excluded_paths_have_no_node_witness :
  excluded (doc "/secret/page/" (hidden_meta_of "s")) = true
  /\ forall n,
       In n (nodes (navTree [doc "/secret/page/" (hidden_meta_of "s");
                             doc "/a/" (meta_of "a")])) ->
       item_name n <> "/secret/".
Proof.
  split; [reflexivity|].
  apply (excluded_paths_have_no_node
           [doc "/secret/page/" (hidden_meta_of "s"); doc "/a/" (meta_of "a")]
           "/secret/").
  - repeat constructor.
  - discriminate.
  - intros info [<-|[<-|[]]] He; simpl in *; [discriminate|].
    intros [H|[]]. discriminate.
Defined.

(** The nodes below the root are at prefixes of documents that are
    not excluded. *)
Lemma node_is_prefix (allInfo : list Info) (n : Item) :
  canonical_paths allInfo ->
  In n (nodes (navTree allInfo)) -> n <> navTree allInfo ->
  exists info, In info allInfo /\ excluded info = false
               /\ under (item_name n) (name info).
Proof.
  intros Hwf Hn Hroot.
  destruct (node_visited allInfo Hwf n Hn) as [|HV]; [contradiction|].
  apply visited_In in HV. destruct HV as (info & Hin & He & Hpre).
  exists info. repeat split; auto.
  unfold canonical_paths in Hwf. rewrite Forall_forall in Hwf.
  now destruct (prefixes_spec (name info) (item_name n) (Hwf info Hin) Hpre).
Qed.

(** C2 as stated fails for an excluded document of path ["/"]: the
    root has that path. *)
Lemma excluded_paths_have_no_node_counterexample :
  let hidden := doc "/" (hidden_meta_of "home") in
  In hidden [hidden] /\ excluded hidden = true
  /\ exists n, In n (nodes (navTree [hidden])) /\ item_name n = name hidden.
Proof.
  simpl. repeat split; auto. eexists. split; [left; reflexivity | reflexivity].
Qed.

(** The example of the specification: an excluded [/secret/page/]. *)
Example secret_page :
  navTree [doc "/secret/page/" (hidden_meta_of "s")] = emptyTree.
Proof. reflexivity. Qed.

(** C4, as amended.  When one or more documents of path [p] are not
    excluded, [p] has exactly one node, and the node carries the
    metadata of the last of them in input order. *)
Theorem last_write_wins (allInfo : list Info) (p : string) (info : Info) :
  canonical_paths allInfo ->
  last_document p allInfo = Some info ->
  exists n,
    In n (nodes (navTree allInfo)) /\ item_name n = p
    /\ item_data n = data info
    /\ forall n', In n' (nodes (navTree allInfo)) -> item_name n' = p ->
                  n' = n.
Proof.
  intros Hwf Hlast.
  destruct (path_has_node allInfo p info Hwf Hlast)
    as (n & Hn & Hnm & Hdata & _).
  exists n. repeat split; auto.
  intros n' Hn' Hnm'. apply (navTree_node_unique allInfo); congruence.
Qed.

Lemma last_write_wins_witness :
  exists n,
    In n (nodes (navTree [doc "/x/" (meta_of "one"); doc "/x/" (meta_of "two")]))
    /\ item_name n = "/x/"
    /\ item_data n = meta_of "two"
    /\ forall n',
         In n' (nodes (navTree [doc "/x/" (meta_of "one");
                                doc "/x/" (meta_of "two")])) ->
         item_name n' = "/x/" -> n' = n.
Proof.
  apply (last_write_wins
           [doc "/x/" (meta_of "one"); doc "/x/" (meta_of "two")]
           "/x/" (doc "/x/" (meta_of "two"))).
  - repeat constructor.
  - reflexivity.
Defined.

(** C4 as stated fails when the last document of the path is
    excluded: the node keeps the metadata of the document before. *)
Lemma last_write_wins_counterexample :
  let hidden := doc "/x/" (hidden_meta_of "two") in
  let allInfo := [doc "/x/" (meta_of "one"); hidden] in
  last_listed "/x/" allInfo = Some hidden
  /\ exists n, In n (nodes (navTree allInfo))
               /\ item_name n = "/x/" /\ item_data n <> data hidden.
Proof.
  simpl. split; [reflexivity|].
  eexists. split; [right; left; reflexivity|]. split; [reflexivity|].
  discriminate.
Qed.

(** C7.  Two documents [/blog/a/] and [/blog/b/], neither excluded,
    and none at [/blog/]: the root has the single child [/blog/], a
    placeholder with the metadata [{}], whose children are [/blog/a/]
    and [/blog/b/] with the metadata of the two documents. *)
Theorem blog_placeholder (a b : Info) :
  name a = "/blog/a/" -> name b = "/blog/b/" ->
  excluded a = false -> excluded b = false ->
  navTree [a; b]
  = mkItem "/" emptyData
      [mkItem "/blog/" emptyData
         [mkItem "/blog/a/" (data a) []; mkItem "/blog/b/" (data b) []]].
Proof.
  intros Ha Hb Ea Eb. unfold navTree. simpl. unfold add_document.
  fold (excluded a). fold (excluded b). rewrite Ha, Hb, Ea, Eb. reflexivity.
Qed.

Lemma blog_placeholder_witness :
  navTree [doc "/blog/a/" (meta_of "a"); doc "/blog/b/" (meta_of "b")]
  = mkItem "/" emptyData
      [mkItem "/blog/" emptyData
         [mkItem "/blog/a/" (meta_of "a") [];
          mkItem "/blog/b/" (meta_of "b") []]].
Proof.
  apply (blog_placeholder (doc "/blog/a/" (meta_of "a"))
                          (doc "/blog/b/" (meta_of "b")));
    reflexivity.
Defined.

(* ================================================================ *)
(** * Sibling order *)

Section Order.

Lemma first_index_In (x : string) (l : list string) :
  In x l -> first_index x l < List.length l.
Proof.
  induction l as [|y l IH]; intros H; [contradiction|]. simpl.
  destruct (String.eqb_spec y x) as [|Hne]; [lia|].
  destruct H as [|H]; [contradiction|]. apply IH in H. lia.
Qed.

Lemma first_index_app (x : string) (l r : list string) :
  In x l -> first_index x (l ++ r) = first_index x l.
Proof.
  induction l as [|y l IH]; intros H; [contradiction|]. simpl.
  destruct (String.eqb_spec y x) as [|Hne]; [reflexivity|].
  destruct H as [|H]; [contradiction|]. now rewrite IH.
Qed.

Lemma first_index_snoc (x : string) (l : list string) :
  ~ In x l -> first_index x (l ++ [x]) = List.length l.
Proof.
  induction l as [|y l IH]; intros H; simpl.
  - now rewrite String.eqb_refl.
  - destruct (String.eqb_spec y x) as [->|Hne].
    + exfalso. apply H. now left.
    + rewrite IH; [reflexivity|]. intros Hin. apply H. now right.
Qed.

(** [first_occurrences] lists the elements by first occurrence. *)
Lemma first_occurrences_order (l : list string) :
  forall i j a b,
    nth_error (first_occurrences l) i = Some a ->
    nth_error (first_occurrences l) j = Some b ->
    i < j -> first_index a l < first_index b l.
Proof.
  induction l as [|x l IH] using rev_ind; intros i j a b Ha Hb Hij.
  - destruct i; discriminate.
  - rewrite first_occurrences_snoc in Ha, Hb. unfold push_new in Ha, Hb.
    destruct (existsb (String.eqb x) (first_occurrences l)) eqn:E.
    + pose proof (nth_error_In _ _ Ha) as Hina.
      pose proof (nth_error_In _ _ Hb) as Hinb.
      apply (proj1 (In_first_occurrences _ _)) in Hina, Hinb.
      rewrite (first_index_app a l [x] Hina), (first_index_app b l [x] Hinb).
      eauto.
    + assert (Hx : ~ In x l).
      { intros Hin. apply (proj2 (In_first_occurrences _ _)) in Hin.
        apply (proj2 (existsb_eqb_In _ _)) in Hin. congruence. }
      assert (Hina : In a l).
      { apply In_first_occurrences.
        apply nth_error_In with i. rewrite nth_error_app1 in Ha; auto.
        assert (Hlt : j < List.length (first_occurrences l ++ [x]))
          by (apply nth_error_Some; congruence).
        rewrite length_app in Hlt. simpl in Hlt. lia. }
      rewrite (first_index_app a l [x] Hina).
      destruct (Nat.lt_ge_cases j (List.length (first_occurrences l)))
        as [Hj|Hj].
      * rewrite nth_error_app1 in Ha, Hb by lia.
        pose proof (nth_error_In _ _ Hb) as Hinb.
        apply (proj1 (In_first_occurrences _ _)) in Hinb.
        rewrite (first_index_app b l [x] Hinb). eauto.
      * rewrite nth_error_app2 in Hb by assumption.
        destruct (j - List.length (first_occurrences l)) as [|[|?]];
          simpl in Hb; try discriminate.
        injection Hb as <-. rewrite first_index_snoc by assumption.
        now apply first_index_In.
Qed.

(** Filtering keeps the order of first occurrences. *)
Lemma first_index_filter (f : string -> bool) (a b : string) (l : list string) :
  f a = true -> f b = true ->
  first_index a (filter f l) < first_index b (filter f l) ->
  first_index a l < first_index b l.
Proof.
  intros Ha Hb. induction l as [|y l IH]; simpl; [lia|].
  destruct (f y) eqn:Hy; simpl.
  - destruct (String.eqb_spec y a), (String.eqb_spec y b); lia.
  - destruct (String.eqb_spec y a) as [->|]; [congruence|].
    destruct (String.eqb_spec y b) as [->|]; [congruence|].
    intros H. apply IH in H. lia.
Qed.

End Order.

(** C5, as amended.  The children of every node are the paths one
    level below it that occur as the path or a directory prefix of a
    document that is not excluded, each once, in the order of their
    first occurrence among those documents; siblings are never
    sorted. *)
Theorem sibling_order (allInfo : list Info) (n : Item) :
  canonical_paths allInfo -> In n (nodes (navTree allInfo)) ->
  map item_name (children n)
  = first_occurrences (filter (child_ofb (item_name n)) (visited allInfo))
  /\ forall i j ci cj,
       nth_error (children n) i = Some ci ->
       nth_error (children n) j = Some cj ->
       i < j ->
       first_index (item_name ci) (visited allInfo)
       < first_index (item_name cj) (visited allInfo).
Proof.
  intros Hwf Hn. pose proof (node_ok_navTree allInfo Hwf n Hn) as Hok.
  destruct Hok as [Hkids _]. split; [assumption|].
  intros i j ci cj Hi Hj Hij.
  assert (Hb : forall c, In c (children n) ->
                         child_ofb (item_name n) (item_name c) = true).
  { intros c Hc. apply child_ofb_spec.
    now destruct (node_ok_child _ _ n c (node_ok_navTree allInfo Hwf n Hn) Hc). }
  apply first_index_filter with (f := child_ofb (item_name n)).
  - apply Hb. now apply nth_error_In with i.
  - apply Hb. now apply nth_error_In with j.
  - apply first_occurrences_order with i j; auto.
    + rewrite <- Hkids. now apply map_nth_error.
    + rewrite <- Hkids. now apply map_nth_error.
Qed.

Lemma sibling_order_witness :
  let allInfo := [doc "/b/" (meta_of "b"); doc "/a/" (meta_of "a")] in
  map item_name (children (navTree allInfo))
  = first_occurrences (filter (child_ofb "/") (visited allInfo))
  /\ forall i j ci cj,
       nth_error (children (navTree allInfo)) i = Some ci ->
       nth_error (children (navTree allInfo)) j = Some cj ->
       i < j ->
       first_index (item_name ci) (visited allInfo)
       < first_index (item_name cj) (visited allInfo).
Proof.
  apply (sibling_order [doc "/b/" (meta_of "b"); doc "/a/" (meta_of "a")]
           (navTree [doc "/b/" (meta_of "b"); doc "/a/" (meta_of "a")])).
  - repeat constructor.
  - simpl. now left.
Defined.

(** C5 as stated fails when a path first occurs in an excluded
    document: [/b/] occurs before [/a/] in the input, and its node
    comes after the node of [/a/]. *)
Lemma sibling_order_counterexample :
  let allInfo := [doc "/b/" (hidden_meta_of "draft"); doc "/a/" (meta_of "a");
                  doc "/b/" (meta_of "b")] in
  exists n ci cj,
    In n (nodes (navTree allInfo))
    /\ nth_error (children n) 0 = Some ci
    /\ nth_error (children n) 1 = Some cj
    /\ first_index (item_name cj) (occurring allInfo)
       < first_index (item_name ci) (occurring allInfo).
Proof.
  simpl. eexists. eexists. eexists.
  split; [left; reflexivity|].
  split; [reflexivity|]. split; [reflexivity|].
  simpl. lia.
Qed.

(* ================================================================ *)
(** * URLs of the output *)

Section Urls.

Local Open Scope string_scope.

Lemma split_app_slash (s f : string) :
  Js.split "/" (s ++ "/" ++ f) = (Js.split "/" s ++ Js.split "/" f)%list.
Proof.
  induction s as [|c s IH]; simpl; [reflexivity|].
  destruct (Ascii.eqb c "/"); simpl in IH; rewrite IH; [reflexivity|].
  pose proof (split_not_nil "/" s) as Hne.
  destruct (Js.split "/" s); [congruence | reflexivity].
Qed.

Lemma split_slash_free_one (f : string) :
  slash_free f = true -> Js.split "/" f = [f].
Proof.
  induction f as [|c f IH]; simpl; [reflexivity|].
  intros H. apply andb_true_iff in H. destruct H as [Hc Hf].
  apply negb_true_iff in Hc. rewrite Hc, (IH Hf). reflexivity.
Qed.

(** The directory of a file directly inside the directory [dir]. *)
Lemma url_dirname_file (dir f : string) :
  ends_with_slash dir = true -> slash_free f = true ->
  url_dirname (dir ++ f) = dir.
Proof.
  intros Hdir Hf. apply ends_with_slash_spec in Hdir. destruct Hdir as [d ->].
  unfold url_dirname. rewrite append_assoc, split_app_slash.
  rewrite (split_slash_free_one f Hf), removelast_snoc.
  now rewrite join_split.
Qed.

Lemma url_dirname_dir (dir : string) :
  ends_with_slash dir = true -> url_dirname dir = dir.
Proof.
  intros Hdir. rewrite <- (append_nil_r dir) at 1.
  now apply url_dirname_file.
Qed.

Lemma ends_with_slash_app (a b : string) :
  ends_with_slash a = true -> ends_with_slash ("/" ++ b) = true ->
  ends_with_slash (a ++ b) = true.
Proof.
  intros Ha Hb. destruct b as [|c b].
  - now rewrite append_nil_r.
  - apply ends_with_slash_spec in Hb. destruct Hb as [s Hs].
    destruct s as [|c' s]; simpl in Hs; [discriminate|].
    injection Hs as _ Hs. apply ends_with_slash_spec.
    exists (a ++ s). now rewrite Hs, append_assoc.
Qed.

Lemma up_to_from (stop : ascii -> bool) (s : string) :
  up_to stop s ++ from stop s = s.
Proof.
  induction s as [|c s IH]; simpl; [reflexivity|].
  destruct (stop c); simpl; [reflexivity | now rewrite IH].
Qed.

(** A reference is its path, its query and its fragment, in a row. *)
Lemma reference_parts (input : string) :
  reference_path input ++ reference_search input ++ reference_hash input
  = input.
Proof.
  unfold reference_path, reference_search, reference_hash.
  now rewrite <- append_assoc, !up_to_from.
Qed.

Lemma plain_app (a b : string) : plain (a ++ b) = plain a && plain b.
Proof.
  induction a as [|c a IH]; simpl; [reflexivity|].
  now rewrite IH, andb_assoc.
Qed.

Lemma plain_parts (s : string) :
  plain s = true ->
  reference_path s = s /\ reference_search s = "" /\ reference_hash s = "".
Proof.
  unfold reference_path, reference_search, reference_hash.
  induction s as [|c s IH]; simpl; [auto|].
  intros H. apply andb_true_iff in H. destruct H as [H Hs].
  apply andb_true_iff in H. destruct H as [Hq Hh].
  apply negb_true_iff in Hq, Hh. rewrite Hh. simpl. rewrite Hq.
  destruct (IH Hs) as (-> & -> & ->). auto.
Qed.

(** A reference with a fragment: the path ends where the fragment
    starts. *)
Lemma fragment_parts (p f : string) :
  plain p = true ->
  reference_path (p ++ String "#" f) = p
  /\ reference_search (p ++ String "#" f) = ""
  /\ reference_hash (p ++ String "#" f) = String "#" f.
Proof.
  unfold reference_path, reference_search, reference_hash.
  induction p as [|c p IH]; simpl; [auto|].
  intros H. apply andb_true_iff in H. destruct H as [H Hp].
  apply andb_true_iff in H. destruct H as [Hq Hh].
  apply negb_true_iff in Hq, Hh. rewrite Hh. simpl. rewrite Hq.
  destruct (IH Hp) as (-> & -> & ->). auto.
Qed.

Lemma path_char_plain (c : ascii) :
  path_char c = true -> negb (is_question c) && negb (is_hash c) = true.
Proof.
  unfold is_question, is_hash.
  destruct (Ascii.eqb_spec c "?") as [->|_]; [discriminate|].
  destruct (Ascii.eqb_spec c "#") as [->|_]; [discriminate | reflexivity].
Qed.

Lemma path_chars_plain (s : string) : path_chars s = true -> plain s = true.
Proof.
  induction s as [|c s IH]; simpl; [reflexivity|].
  intros H. apply andb_true_iff in H. destruct H as [Hc Hs].
  now rewrite (path_char_plain c Hc), (IH Hs).
Qed.

Lemma simple_path_plain (p : string) : simple_path p = true -> plain p = true.
Proof.
  unfold simple_path. intros H. apply andb_true_iff in H. destruct H as [H _].
  apply andb_true_iff in H. destruct H as [H _]. now apply path_chars_plain.
Qed.

(** Resolving a path without query and fragment. *)
Lemma new_URL_absolute (p : string) (base : URL) :
  plain p = true -> starts_with_slash p = true ->
  new_URL p base = mkURL (url_origin base) p "" "".
Proof.
  intros Hp Hs. unfold new_URL.
  destruct (plain_parts p Hp) as (-> & -> & ->). now rewrite Hs.
Qed.

Lemma new_URL_relative (c : ascii) (p : string) (base : URL) :
  plain (String c p) = true -> starts_with_slash (String c p) = false ->
  new_URL (String c p) base
  = mkURL (url_origin base)
          (url_dirname (url_pathname base) ++ drop_dot_slash (String c p))
          "" "".
Proof.
  intros Hp Hs. unfold new_URL.
  destruct (plain_parts _ Hp) as (-> & -> & ->). now rewrite Hs.
Qed.

(** A path is what precedes its last segment, and that segment. *)
Lemma last_segment (p : string) :
  exists p1 p2,
    p = p1 ++ p2 /\ slash_free p2 = true
    /\ (p1 = "" \/ ends_with_slash p1 = true).
Proof.
  induction p as [|c p (p1 & p2 & -> & Hfree & Hdir)].
  - exists "", "". auto.
  - destruct Hdir as [->|Hdir].
    + destruct (Ascii.eqb c "/") eqn:E.
      * apply Ascii.eqb_eq in E. subst c. exists "/", p2. auto.
      * exists "", (String c p2). simpl. rewrite E. auto.
    + exists (String c p1), p2. repeat split; auto. right.
      destruct p1; [discriminate | exact Hdir].
Qed.

(** Below a directory, the directory of a path is no longer than the
    path. *)
Lemma url_dirname_length (dir p : string) :
  ends_with_slash dir = true ->
  (String.length (url_dirname (dir ++ p)) <= String.length (dir ++ p))%nat.
Proof.
  intros Hdir. destruct (last_segment p) as (p1 & p2 & -> & Hfree & H1).
  rewrite <- append_assoc.
  rewrite url_dirname_file; [rewrite (length_append (dir ++ p1)); lia | | exact Hfree].
  destruct H1 as [->|H1]; [now rewrite append_nil_r|].
  apply ends_with_slash_app; [assumption|].
  destruct p1; [discriminate | exact H1].
Qed.

(** Where the two files of the document of path ["/" ++ rel] go. *)
Lemma json_url_path (config : Config) (rel : string) :
  ends_with_slash (url_pathname (output config)) = true ->
  plain rel = true ->
  json_url config ("/" ++ rel)
  = mkURL (url_origin (output config))
          (url_pathname (output config) ++ rel ++ "index.json") "" "".
Proof.
  intros Hout Hrel. unfold json_url.
  change ("." ++ ("/" ++ rel) ++ "index.json")
    with (String "." ("/" ++ rel ++ "index.json")).
  rewrite new_URL_relative; [|simpl; rewrite plain_app, Hrel|];
    try reflexivity.
  simpl drop_dot_slash. now rewrite (url_dirname_dir _ Hout).
Qed.

Lemma html_beside (origin dir f search hash : string) :
  ends_with_slash dir = true -> slash_free f = true ->
  new_URL "index.html" (mkURL origin (dir ++ f) search hash)
  = mkURL origin (dir ++ "index.html") "" "".
Proof.
  intros Hdir Hf.
  rewrite new_URL_relative by reflexivity.
  simpl. now rewrite (url_dirname_file dir f Hdir Hf).
Qed.

Lemma html_url_path (config : Config) (rel : string) :
  ends_with_slash (url_pathname (output config)) = true ->
  plain rel = true ->
  ends_with_slash ("/" ++ rel) = true ->
  new_URL "index.html" (json_url config ("/" ++ rel))
  = mkURL (url_origin (output config))
          (url_pathname (output config) ++ rel ++ "index.html") "" "".
Proof.
  intros Hout Hplain Hrel. rewrite (json_url_path config rel Hout Hplain).
  rewrite <- (append_assoc _ rel "index.json").
  rewrite html_beside.
  - now rewrite append_assoc.
  - now apply ends_with_slash_app.
  - reflexivity.
Qed.

(** The metadata file of a path with a fragment: the fragment and the
    file name after it are no part of the path of the URL. *)
Lemma json_url_fragment (config : Config) (p f : string) :
  ends_with_slash (url_pathname (output config)) = true ->
  plain p = true ->
  json_url config ("/" ++ p ++ "#" ++ f)
  = mkURL (url_origin (output config))
          (url_pathname (output config) ++ p)
          "" ("#" ++ f ++ "index.json").
Proof.
  intros Hout Hp. unfold json_url, new_URL.
  replace ("." ++ ("/" ++ p ++ "#" ++ f) ++ "index.json")
    with (("./" ++ p) ++ String "#" (f ++ "index.json"))
    by (simpl; now rewrite append_assoc).
  destruct (fragment_parts ("./" ++ p) (f ++ "index.json")) as (-> & -> & ->);
    [exact Hp|].
  simpl. now rewrite (url_dirname_dir _ Hout).
Qed.

End Urls.

(* ================================================================ *)
(** * The sitemap *)




(* ================================================================ *)
(** * The output of a path with a fragment *)

(** C8, where the script departs from it.  The script writes the
    metadata of a document to [jsonUrl] (line 163) and its page to
    [index.html] resolved against [jsonUrl] (lines 243 and 250).  For
    a document whose path has a ["#"], as the loader gives a file with
    ["#"] in its name, the path of [jsonUrl] ends before the ["#"]:
    the metadata is written to the file named by what precedes the
    ["#"], not to [index.json] in the directory of the document's
    path, and the page is written to [index.html] beside that file,
    not in the directory of the document's path either. *)
Theorem fragment_path_misplaces_output (config : Config) (p f : string) :
  ends_with_slash (url_pathname (output config)) = true ->
  simple_path ("/" ++ p) = true ->
  let name := ("/" ++ p ++ "#" ++ f)%string in
  let claimed := (url_pathname (output config) ++ p ++ "#" ++ f)%string in
  url_pathname (json_url config name)
  = (url_pathname (output config) ++ p)%string
  /\ url_pathname (new_URL "index.html" (json_url config name))
     = (url_dirname (url_pathname (output config) ++ p) ++ "index.html")%string
  /\ url_pathname (json_url config name) <> (claimed ++ "index.json")%string
  /\ url_pathname (new_URL "index.html" (json_url config name))
     <> (claimed ++ "index.html")%string.
Proof.
  intros Hout Hp name claimed. subst name claimed.
  apply simple_path_plain in Hp. simpl in Hp.
  rewrite (json_url_fragment config p f Hout Hp).
  rewrite new_URL_relative by reflexivity.
  cbn [url_pathname url_origin drop_dot_slash].
  repeat split.
  - intros E. apply (f_equal String.length) in E.
    rewrite !length_append in E. simpl in E. lia.
  - intros E. apply (f_equal String.length) in E.
    pose proof (url_dirname_length _ p Hout) as Hlen.
    rewrite !length_append in E. rewrite !length_append in Hlen.
    cbn [String.length] in E. lia.
Qed.

(** The file [a.mdx#b.md] of the input directory: its document has the
    path [/a.mdx#b/]; its metadata goes to the file [a.mdx] of the
    output directory and its page to the [index.html] of the output
    directory, which is the page of the document of path [/]. *)
Lemma fragment_path_misplaces_output_witness :
  document_name "file:///mdx/docs/" "file:///mdx/docs/a.mdx#b.md" = "/a.mdx#b/"
  /\ new_URL "index.html" (json_url example_config "/a.mdx#b/")
     = new_URL "index.html" (json_url example_config "/")
  /\ (url_pathname (json_url example_config "/a.mdx#b/") = "/mdx/public/a.mdx"
      /\ url_pathname (new_URL "index.html" (json_url example_config "/a.mdx#b/"))
         = "/mdx/public/index.html"
      /\ url_pathname (json_url example_config "/a.mdx#b/")
         <> "/mdx/public/a.mdx#b/index.json"
      /\ url_pathname (new_URL "index.html" (json_url example_config "/a.mdx#b/"))
         <> "/mdx/public/a.mdx#b/index.html").
Proof.
  split; [reflexivity|]. split; [reflexivity|].
  apply (fragment_path_misplaces_output example_config "a.mdx" "b/");
    reflexivity.
Defined.

(* ================================================================ *)
(** * The construction step by step *)

Section Positions.

Lemma update_nth_ext_at {A : Type} (f g : A -> A) (l : list A) (i : nat) :
  (forall x, nth_error l i = Some x -> f x = g x) ->
  update_nth i f l = update_nth i g l.
Proof.
  revert i. induction l as [|y l IH]; intros i H; [reflexivity|].
  destruct i as [|i]; simpl.
  - now rewrite (H y eq_refl).
  - f_equal. apply IH. intros x Hx. now apply H.
Qed.

Lemma update_nth_compose {A : Type} (f g : A -> A) (l : list A) (i : nat) :
  update_nth i f (update_nth i g l) = update_nth i (fun x => f (g x)) l.
Proof.
  revert i. induction l as [|y l IH]; intros i; [reflexivity|].
  destruct i as [|i]; simpl; [reflexivity | now rewrite IH].
Qed.

Lemma nth_error_update_nth {A : Type} (f : A -> A) (l : list A) (i j : nat) :
  nth_error (update_nth i f l) j
  = if Nat.eqb i j then option_map f (nth_error l j) else nth_error l j.
Proof.
  revert i j. induction l as [|y l IH]; intros i j.
  - destruct i, j; simpl; try reflexivity. now destruct (Nat.eqb i j).
  - destruct i as [|i], j as [|j]; simpl; try reflexivity. apply IH.
Qed.

Lemma subtree_at_app (p q : list nat) (t : Item) :
  subtree_at (p ++ q) t
  = match subtree_at p t with
    | Some n => subtree_at q n
    | None => None
    end.
Proof.
  revert t. induction p as [|i p IH]; intros t; simpl; [reflexivity|].
  destruct (nth_error (children t) i); [apply IH | reflexivity].
Qed.

Lemma update_at_ext (f g : Item -> Item) (pos : list nat) :
  forall t n, subtree_at pos t = Some n -> f n = g n ->
              update_at pos f t = update_at pos g t.
Proof.
  induction pos as [|i pos IH]; intros t n Hn E; simpl in *.
  - now injection Hn as ->.
  - f_equal. apply update_nth_ext_at. intros c Hc. rewrite Hc in Hn.
    now apply IH with n.
Qed.

Lemma update_at_pointwise (f g : Item -> Item) (pos : list nat) (t : Item) :
  (forall x, f x = g x) -> update_at pos f t = update_at pos g t.
Proof.
  intros E. revert t. induction pos as [|i pos IH]; intros t; simpl; [apply E|].
  f_equal. apply update_nth_ext_at. intros c _. apply IH.
Qed.

Lemma update_at_compose (f g : Item -> Item) (pos : list nat) (t : Item) :
  update_at pos f (update_at pos g t) = update_at pos (fun x => f (g x)) t.
Proof.
  revert t. induction pos as [|i pos IH]; intros t; simpl; [reflexivity|].
  f_equal. rewrite update_nth_compose.
  apply update_nth_ext_at. intros c _. apply IH.
Qed.

Lemma update_at_app (f : Item -> Item) (p q : list nat) (t : Item) :
  update_at (p ++ q) f t = update_at p (update_at q f) t.
Proof.
  revert t. induction p as [|i p IH]; intros t; simpl; [reflexivity|].
  f_equal. apply update_nth_ext_at. intros c _. apply IH.
Qed.

Lemma update_at_same (f : Item -> Item) (pos : list nat) :
  forall t n, subtree_at pos t = Some n -> f n = n -> update_at pos f t = t.
Proof.
  induction pos as [|i pos IH]; intros t n Hn E; simpl in *.
  - now injection Hn as ->.
  - destruct t as [nm d cs]. simpl in *. f_equal.
    destruct (nth_error cs i) as [c|] eqn:Hc; [|discriminate].
    clear -IH Hc Hn E. revert i Hc.
    induction cs as [|y cs IHcs]; intros i Hc; [reflexivity|].
    destruct i as [|i]; simpl in *.
    + injection Hc as ->. f_equal. now apply IH with n.
    + f_equal. now apply IHcs.
Qed.

Lemma subtree_at_update_at (f : Item -> Item) (pos : list nat) :
  forall t n, subtree_at pos t = Some n ->
              subtree_at pos (update_at pos f t) = Some (f n).
Proof.
  induction pos as [|i pos IH]; intros t n Hn; simpl in *.
  - now injection Hn as ->.
  - rewrite nth_error_update_nth, Nat.eqb_refl.
    destruct (nth_error (children t) i) as [c|]; [|discriminate].
    simpl. now apply IH.
Qed.

End Positions.

Section Run.

(** The inner loop on positions does what [descend] does: after the
    iterations for [idxs], [context] refers to a node of the tree, and
    assigning to its [data] gives the tree in which [descend] has
    replaced the node the loop started from. *)
Lemma inner_body_descend (parts : list string) :
  forall idxs tree context node,
    subtree_at context tree = Some node ->
    exists node',
      subtree_at (snd (fold_left (inner_body parts) idxs (tree, context)))
                 (fst (fold_left (inner_body parts) idxs (tree, context)))
      = Some node'
      /\ forall d,
           update_at (snd (fold_left (inner_body parts) idxs (tree, context)))
                     (set_data d)
                     (fst (fold_left (inner_body parts) idxs (tree, context)))
           = update_at context (descend parts idxs d) tree.
Proof.
  induction idxs as [|k later IH]; intros tree context node Hnode.
  - simpl. exists node. split; [assumption|]. intros d.
    now apply update_at_pointwise.
  - change (fold_left (inner_body parts) (k :: later) (tree, context))
      with (fold_left (inner_body parts) later
              (inner_body parts (tree, context) k)).
    remember (inner_body parts (tree, context) k) as st eqn:Est.
    unfold inner_body in Est. rewrite Hnode in Est.
    destruct (Js.findIndex _ (children node)) as [i|] eqn:Hfind; subst st.
    + destruct (findIndex_Some _ _ _ Hfind)
        as (l1 & c & l2 & Hcs & Hlen & _ & _).
      assert (Hsub : subtree_at (context ++ [i]) tree = Some c).
      { rewrite subtree_at_app, Hnode. simpl.
        rewrite Hcs, <- Hlen, nth_error_app2, Nat.sub_diag by lia.
        reflexivity. }
      destruct (IH tree (context ++ [i]) c Hsub) as (node' & Hn' & Hupd).
      exists node'. split; [assumption|]. intros d.
      rewrite Hupd, update_at_app. apply update_at_ext with node; auto.
      rewrite descend_cons, Hfind. now destruct node.
    + set (q := part_name parts k) in *.
      assert (Hsub : subtree_at (context ++ [List.length (children node)])
                       (update_at context (push_child q) tree)
                     = Some (mkItem q emptyData [])).
      { rewrite subtree_at_app, (subtree_at_update_at _ _ _ _ Hnode).
        simpl. rewrite nth_error_app2, Nat.sub_diag by lia. reflexivity. }
      destruct (IH _ _ _ Hsub) as (node' & Hn' & Hupd).
      exists node'. split; [assumption|]. intros d.
      rewrite Hupd, update_at_app, update_at_compose.
      apply update_at_ext with node; auto.
      rewrite descend_cons. fold q. rewrite Hfind.
      unfold push_child. simpl. f_equal.
      apply (update_nth_app _ (children node) []).
Qed.

Variable allInfo : list Info.

Lemma reaches_trans (s s' s'' : State) :
  reaches allInfo s s' -> reaches allInfo s' s'' -> reaches allInfo s s''.
Proof.
  induction 1 as [|s s1 s2 Hstep _ IH]; intros H; [assumption|].
  apply reaches_step with s1; auto.
Qed.

Lemma reaches_one (s s' : State) :
  step allInfo s = Some s' -> reaches allInfo s s'.
Proof. intros H. apply reaches_step with s'; [assumption | constructor]. Qed.

Lemma step_Inner index tree parts d partIndex context :
  step allInfo (Inner index tree parts d partIndex context)
  = if (partIndex + 1 <? List.length parts)%nat
    then Some (Inner index
                 (fst (inner_body parts (tree, context) (partIndex + 1)))
                 parts d (partIndex + 1)
                 (snd (inner_body parts (tree, context) (partIndex + 1))))
    else Some (Outer index (update_at context (set_data d) tree)).
Proof.
  unfold step.
  now destruct (inner_body parts (tree, context) (partIndex + 1)).
Qed.

(** The inner loop runs to its end. *)
Lemma inner_run (index : Z) (parts : list string) (d : Data) :
  forall n partIndex tree context,
    n = List.length parts - (partIndex + 1) ->
    reaches allInfo (Inner index tree parts d partIndex context)
      (Outer index
         (update_at
            (snd (fold_left (inner_body parts) (seq (partIndex + 1) n)
                            (tree, context)))
            (set_data d)
            (fst (fold_left (inner_body parts) (seq (partIndex + 1) n)
                            (tree, context))))).
Proof.
  induction n as [|n IH]; intros partIndex tree context Hn.
  - apply reaches_one. rewrite step_Inner.
    now rewrite (proj2 (Nat.ltb_ge _ _)) by lia.
  - destruct (inner_body parts (tree, context) (partIndex + 1))
      as [tree' context'] eqn:E.
    apply reaches_step with (Inner index tree' parts d (partIndex + 1) context').
    + rewrite step_Inner, (proj2 (Nat.ltb_lt _ _)) by lia. now rewrite E.
    + rewrite <- cons_seq. cbn [fold_left]. rewrite E.
      replace (S (partIndex + 1)) with (partIndex + 1 + 1) by lia.
      apply IH. lia.
Qed.

(** One iteration of the outer loop does [add_document]. *)
Lemma document_run (index : Z) (tree : Item) (info : Info) :
  (-1 <= index)%Z ->
  nth_error allInfo (Z.to_nat (index + 1)) = Some info ->
  reaches allInfo (Outer index tree)
          (Outer (index + 1) (add_document tree info)).
Proof.
  intros Hindex Hnth.
  assert (Hlt : (index + 1 <? Z.of_nat (List.length allInfo))%Z = true).
  { apply Z.ltb_lt.
    assert (Z.to_nat (index + 1) < List.length allInfo)
      by (apply nth_error_Some; congruence).
    lia. }
  unfold add_document.
  destruct (Js.truthy (navExclude (data info))) eqn:He.
  - apply reaches_one. simpl. now rewrite Hlt, Hnth, He.
  - apply reaches_step
      with (Inner (index + 1) tree (parts_of (name info)) (data info) 0 []).
    + simpl. now rewrite Hlt, Hnth, He.
    + pose proof (inner_run (index + 1) (parts_of (name info)) (data info)
                    (List.length (parts_of (name info)) - 1) 0 tree []
                    eq_refl) as Hrun.
      destruct (inner_body_descend (parts_of (name info))
                  (seq 1 (List.length (parts_of (name info)) - 1))
                  tree [] tree eq_refl) as (node' & _ & Hupd).
      simpl Nat.add in Hrun. rewrite Hupd in Hrun. exact Hrun.
Qed.

Lemma outer_run :
  forall rest done tree,
    allInfo = done ++ rest ->
    reaches allInfo (Outer (Z.of_nat (List.length done) - 1) tree)
      (Outer (Z.of_nat (List.length allInfo) - 1)
             (fold_left add_document rest tree)).
Proof.
  induction rest as [|info rest IH]; intros done tree Hall.
  - rewrite app_nil_r in Hall. subst done. constructor.
  - apply reaches_trans
      with (Outer (Z.of_nat (List.length done) - 1 + 1)
                  (add_document tree info)).
    + apply document_run; [lia|].
      replace (Z.to_nat (Z.of_nat (List.length done) - 1 + 1))
        with (List.length done) by lia.
      rewrite Hall, nth_error_app2, Nat.sub_diag by lia. reflexivity.
    + replace (Z.of_nat (List.length done) - 1 + 1)%Z
        with (Z.of_nat (List.length (done ++ [info])) - 1)%Z
        by (rewrite length_app; simpl; lia).
      apply IH. now rewrite <- app_assoc.
Qed.

(** The script terminates with the tree [navTree allInfo]. *)
Lemma run_total :
  reaches allInfo initial
    (Outer (Z.of_nat (List.length allInfo) - 1) (navTree allInfo)).
Proof. apply (outer_run allInfo [] emptyTree). reflexivity. Qed.

Lemma finished_halts (s : State) :
  finished allInfo s -> step allInfo s = None.
Proof.
  intros (index & tree & -> & Hlen). simpl.
  now rewrite (proj2 (Z.ltb_ge _ _)) by lia.
Qed.

Lemma reaches_deterministic (s s1 s2 : State) :
  reaches allInfo s s1 -> step allInfo s1 = None ->
  reaches allInfo s s2 -> step allInfo s2 = None -> s1 = s2.
Proof.
  induction 1 as [s|s s' s1 Hstep _ IH]; intros H1 H2 Hend.
  - destruct H2 as [|s s' s2 Hstep _]; [reflexivity | congruence].
  - destruct H2 as [|s s'' s2 Hstep' H2]; [congruence|].
    apply IH; auto. congruence.
Qed.

End Run.

Section Rebuild.

Lemma fold_push_absorb (l acc : list string) :
  (forall x, In x l -> In x acc) -> fold_left push_new l acc = acc.
Proof.
  induction l as [|x l IH]; intros H; simpl; [reflexivity|].
  unfold push_new at 2.
  rewrite (proj2 (existsb_eqb_In x acc)) by (apply H; now left).
  apply IH. intros y Hy. apply H. now right.
Qed.

Lemma first_occurrences_twice (l : list string) :
  first_occurrences (l ++ l) = first_occurrences l.
Proof.
  unfold first_occurrences. rewrite fold_left_app. apply fold_push_absorb.
  intros x Hx. now apply In_first_occurrences.
Qed.

Lemma find_app {A : Type} (p : A -> bool) (a b : list A) :
  find p (a ++ b)
  = match find p a with
    | Some x => Some x
    | None => find p b
    end.
Proof.
  induction a as [|x a IH]; simpl; [reflexivity|]. now destruct (p x).
Qed.

Lemma data_for_twice (allInfo : list Info) (x : string) :
  data_for (allInfo ++ allInfo) x = data_for allInfo x.
Proof.
  unfold data_for, last_document. rewrite rev_app_distr, find_app.
  now destruct (find _ (rev allInfo)).
Qed.

Lemma visited_app (a b : list Info) : visited (a ++ b) = visited a ++ visited b.
Proof. unfold visited. apply flat_map_app. Qed.

(** The invariant determines the tree. *)
Lemma node_ok_unique (V V' : list string) (D D' : string -> Data) :
  (forall n, first_occurrences (filter (child_ofb n) V)
             = first_occurrences (filter (child_ofb n) V')) ->
  (forall x, D x = D' x) ->
  forall t t',
    item_name t = item_name t' ->
    every_node (node_ok V D) t -> every_node (node_ok V' D') t' -> t = t'.
Proof.
  intros HV HD. induction t as [n d cs IH] using Item_induction.
  intros [n' d' cs'] Hname H H'. simpl in Hname. subst n'.
  apply every_node_unfold in H, H'.
  destruct H as [[Hkids Hdata] Hcs], H' as [[Hkids' Hdata'] Hcs'].
  simpl in *. f_equal; [congruence|].
  assert (Hnames : map item_name cs = map item_name cs') by congruence.
  clear Hkids Hkids' Hdata Hdata'. revert cs' Hcs' Hnames.
  induction cs as [|c cs IHcs]; intros [|c' cs'] Hcs' Hnames;
    try discriminate; [reflexivity|].
  simpl in Hnames. injection Hnames as Hc Hrest.
  inversion IH; inversion Hcs; inversion Hcs'; subst.
  f_equal; auto.
Qed.

(** Running the fold again on the tree it has built changes nothing. *)
Lemma rebuild_idempotent (allInfo : list Info) :
  canonical_paths allInfo ->
  fold_left add_document allInfo (navTree allInfo) = navTree allInfo.
Proof.
  intros Hwf.
  change (fold_left add_document allInfo (navTree allInfo))
    with (fold_left add_document allInfo
            (fold_left add_document allInfo emptyTree)).
  rewrite <- fold_left_app. fold (navTree (allInfo ++ allInfo)).
  apply node_ok_unique
    with (visited (allInfo ++ allInfo)) (visited allInfo)
         (data_for (allInfo ++ allInfo)) (data_for allInfo).
  - intros n. rewrite visited_app, filter_app. apply first_occurrences_twice.
  - apply data_for_twice.
  - now rewrite !item_name_navTree.
  - apply navTree_invariant. apply Forall_app. now split.
  - now apply navTree_invariant.
Qed.

End Rebuild.

(** C9.  The construction is a deterministic, terminating function of
    the input list: a run ends, and any two runs on the same list end
    with the same tree, which is [navTree allInfo], hence with the same
    nodes, sibling order and metadata; and running the fold once more
    on the tree it has built gives that tree again. *)
Theorem build_deterministic (allInfo : list Info) :
  (exists s, reaches allInfo initial s /\ finished allInfo s)
  /\ (forall s1 s2,
        reaches allInfo initial s1 -> step allInfo s1 = None ->
        reaches allInfo initial s2 -> step allInfo s2 = None ->
        tree_of s1 = tree_of s2 /\ tree_of s1 = navTree allInfo)
  /\ (canonical_paths allInfo ->
      fold_left add_document allInfo (navTree allInfo) = navTree allInfo).
Proof.
  pose proof (run_total allInfo) as Hrun.
  assert (Hfin : finished allInfo
                   (Outer (Z.of_nat (List.length allInfo) - 1)
                          (navTree allInfo))).
  { eexists. eexists. split; [reflexivity | lia]. }
  split; [eauto|]. split; [|apply rebuild_idempotent].
  intros s1 s2 H1 E1 H2 E2.
  pose proof (finished_halts allInfo _ Hfin) as Hhalt.
  rewrite (reaches_deterministic allInfo _ _ _ H1 E1 Hrun Hhalt).
  rewrite (reaches_deterministic allInfo _ _ _ H2 E2 Hrun Hhalt).
  split; reflexivity.
Qed.

(* ================================================================ *)
(** * The path invariant *)

Section Reachable.

Variable allInfo : list Info.

Lemma firstn_snoc_nth {A : Type} (l : list A) (k : nat) (x : A) :
  nth_error l k = Some x -> firstn (S k) l = firstn k l ++ [x].
Proof.
  revert k. induction l as [|y l IH]; intros k H.
  - destruct k; discriminate.
  - destruct k as [|k]; simpl in *.
    + now injection H as ->.
    + f_equal. now apply IH.
Qed.

Lemma navTree_next (k : nat) (info : Info) :
  nth_error allInfo k = Some info ->
  navTree (firstn (S k) allInfo)
  = add_document (navTree (firstn k allInfo)) info.
Proof.
  intros H. now rewrite (firstn_snoc_nth allInfo k info H), navTree_snoc.
Qed.

Lemma initial_expected : expected allInfo initial.
Proof. exists 0. repeat split. simpl. lia. Qed.

Lemma step_expected (s s' : State) :
  expected allInfo s -> step allInfo s = Some s' -> expected allInfo s'.
Proof.
  destruct s as [index tree | index tree parts d partIndex context].
  - intros (k & -> & Hk & ->) Hstep. simpl in Hstep.
    replace (Z.of_nat k - 1 + 1)%Z with (Z.of_nat k) in Hstep by lia.
    rewrite Nat2Z.id in Hstep.
    destruct (Z.of_nat k <? Z.of_nat (List.length allInfo))%Z;
      [|discriminate].
    destruct (nth_error allInfo k) as [info|] eqn:Hnth; [|discriminate].
    assert (Hlt : k < List.length allInfo)
      by (apply nth_error_Some; congruence).
    destruct (Js.truthy (navExclude (data info))) eqn:He;
      injection Hstep as <-.
    + exists (S k). repeat split; [lia | lia |].
      rewrite (navTree_next k info Hnth). unfold add_document.
      now rewrite He.
    + exists k, info. repeat split; auto. lia.
  - intros (k & info & -> & Hnth & He & -> & -> & Hpi & Hfold) Hstep.
    rewrite step_Inner in Hstep.
    destruct (partIndex + 1 <? List.length (parts_of (name info)))%nat
      eqn:Hlt; injection Hstep as <-.
    + apply Nat.ltb_lt in Hlt. exists k, info. repeat split; auto; [lia|].
      replace (partIndex + 1) with (S partIndex) by lia.
      rewrite seq_S, fold_left_app, <- Hfold.
      rewrite <- surjective_pairing. reflexivity.
    + apply Nat.ltb_ge in Hlt.
      assert (Hlen : k < List.length allInfo)
        by (apply nth_error_Some; congruence).
      exists (S k). repeat split; [lia | lia |].
      rewrite (navTree_next k info Hnth). unfold add_document.
      fold (excluded info). rewrite He. unfold part_indexes.
      replace (List.length (parts_of (name info)) - 1) with partIndex by lia.
      destruct (inner_body_descend (parts_of (name info)) (seq 1 partIndex)
                  (navTree (firstn k allInfo)) [] _ eq_refl)
        as (node' & _ & Hupd).
      rewrite <- Hfold in Hupd. simpl in Hupd. apply Hupd.
Qed.

Lemma reaches_expected (s s' : State) :
  reaches allInfo s s' -> expected allInfo s -> expected allInfo s'.
Proof.
  induction 1 as [|s s1 s2 Hstep _ IH]; intros H; [assumption|].
  apply IH. now apply step_expected with s.
Qed.

Lemma canonical_paths_firstn (k : nat) :
  canonical_paths allInfo -> canonical_paths (firstn k allInfo).
Proof.
  unfold canonical_paths. intros H.
  rewrite <- (firstn_skipn k allInfo) in H. now apply Forall_app in H.
Qed.

Lemma node_ok_path_invariant (V : list string) (D : string -> Data) (t : Item) :
  item_name t = "/" -> every_node (node_ok V D) t -> path_invariant t.
Proof.
  intros Hroot Hok. split; [assumption|]. intros n c Hn Hc.
  unfold every_node in Hok. rewrite Forall_forall in Hok.
  now destruct (node_ok_child V D n c (Hok n Hn) Hc).
Qed.

End Reachable.

Section Segments.

Local Open Scope string_scope.

Lemma double_slash_app (a b : string) :
  double_slash a = true -> double_slash (a ++ b) = true.
Proof.
  induction a as [|c a IH]; simpl; [discriminate|].
  intros H. apply orb_true_iff in H. apply orb_true_iff.
  destruct H as [H|H]; [left | right; now apply IH].
  apply andb_true_iff in H. destruct H as [Hc Ha]. rewrite Hc.
  destruct a; [discriminate | exact Ha].
Qed.

Lemma double_slash_snoc (n : string) :
  ends_with_slash n = true -> double_slash (n ++ "/") = true.
Proof.
  induction n as [|c n IH]; simpl; [discriminate|].
  destruct n as [|c' n].
  - intros ->. reflexivity.
  - intros H. apply orb_true_iff. right. now apply IH.
Qed.

(** In a path without empty segment the segment that leads from a
    parent to a child is not empty. *)
Lemma child_segment_nonempty (n x p : string) :
  ends_with_slash n = true -> child_of n x -> under x p ->
  double_slash p = false ->
  exists seg, seg <> "" /\ slash_free seg = true /\ x = n ++ seg ++ "/".
Proof.
  intros Hn (seg & Hfree & ->) [r ->] Hp. exists seg. repeat split; auto.
  intros ->. simpl in Hp.
  rewrite (double_slash_app _ r (double_slash_snoc n Hn)) in Hp.
  discriminate.
Qed.

End Segments.

(** What holds at every program point: the tree satisfies the
    invariant for some visited paths, all of them names that the inner
    loop computes for a document of the input. *)
Lemma reachable_invariant (allInfo : list Info) (s : State) :
  canonical_paths allInfo -> reaches allInfo initial s ->
  exists V D,
    item_name (tree_of s) = "/"
    /\ every_node (node_ok V D) (tree_of s)
    /\ forall x, In x V ->
                 exists info, In info allInfo /\ In x (prefixes (name info)).
Proof.
  intros Hwf Hreach.
  pose proof (reaches_expected allInfo _ _ Hreach (initial_expected allInfo))
    as Hs.
  assert (Hbefore : forall k x,
             In x (visited (firstn k allInfo)) ->
             exists info, In info allInfo /\ In x (prefixes (name info))).
  { intros k x Hx. apply visited_In in Hx.
    destruct Hx as (info & Hin & _ & Hx). exists info. split; [|assumption].
    rewrite <- (firstn_skipn k allInfo). apply in_or_app. now left. }
  destruct s as [index tree | index tree parts d partIndex context]; simpl.
  - destruct Hs as (k & _ & _ & ->).
    exists (visited (firstn k allInfo)), (data_for (firstn k allInfo)).
    repeat split.
    + apply item_name_navTree.
    + apply navTree_invariant. now apply canonical_paths_firstn.
    + apply Hbefore.
  - destruct Hs as (k & info & _ & Hnth & He & -> & -> & Hpi & Hfold).
    set (T := navTree (firstn k allInfo)) in *.
    destruct (inner_body_descend (parts_of (name info)) (seq 1 partIndex)
                T [] T eq_refl) as (node' & Hnode & Hupd).
    rewrite <- Hfold in Hnode, Hupd. simpl in Hnode, Hupd.
    specialize (Hupd (item_data node')).
    rewrite (update_at_same _ context tree node' Hnode) in Hupd
      by now destruct node'.
    rewrite Hupd.
    pose proof (canonical_paths_firstn allInfo k Hwf) as Hwfk.
    assert (Hin : In info allInfo) by now apply nth_error_In with k.
    assert (Hcan : canonical (name info) = true).
    { unfold canonical_paths in Hwf. rewrite Forall_forall in Hwf.
      now apply Hwf. }
    destruct (parts_of_canonical _ Hcan) as (segs & Hparts & Hfree & _).
    eexists. eexists. repeat split.
    + rewrite item_name_descend. apply item_name_navTree.
    + apply (descend_ok (visited (firstn k allInfo))
               (data_for (firstn k allInfo))
               (parts_of (name info)) (item_data node')
               (visited_closed _ Hwfk) (data_for_supported _ Hwfk)
               (seq 1 partIndex) [] T).
      * unfold T. rewrite item_name_navTree.
        rewrite <- (part_name_0 segs), <- Hparts.
        apply (chain_from (parts_of (name info)) partIndex 1 Hfree); [lia|].
        rewrite Hparts in *. simpl in *. lia.
      * unfold T. now rewrite item_name_navTree.
      * intros p [].
      * now apply navTree_invariant.
    + intros x Hx. apply in_app_iff in Hx. destruct Hx as [Hx|Hx];
        [now apply Hbefore with k|].
      exists info. split; [assumption|].
      apply in_map_iff in Hx. destruct Hx as (i & <- & Hi).
      apply in_map. apply in_seq. apply in_seq in Hi. lia.
Qed.

(** C6.  At every program point that the construction reaches, after
    every iteration of the inner loop and after every document, the
    root of the tree has path ["/"] and the path of every other node is
    the path of its parent followed by one segment and ["/"]; the
    segment is not empty when no document path has an empty segment. *)
Theorem path_invariant_always (allInfo : list Info) (s : State) :
  canonical_paths allInfo ->
  reaches allInfo initial s ->
  path_invariant (tree_of s)
  /\ (Forall (fun info => double_slash (name info) = false) allInfo ->
      forall n c,
        In n (nodes (tree_of s)) -> In c (children n) ->
        exists seg,
          seg <> ""%string /\ slash_free seg = true
          /\ item_name c = (item_name n ++ seg ++ "/")%string).
Proof.
  intros Hwf Hreach.
  destruct (reachable_invariant allInfo s Hwf Hreach)
    as (V & D & Hroot & Hok & HV).
  pose proof (node_ok_path_invariant V D _ Hroot Hok) as Hinv.
  split; [assumption|].
  intros Hseg n c Hn Hc.
  unfold every_node in Hok. rewrite Forall_forall in Hok.
  destruct (node_ok_child V D n c (Hok n Hn) Hc) as [Hchild HcV].
  destruct (HV _ HcV) as (info & Hin & Hpre).
  unfold canonical_paths in Hwf. rewrite Forall_forall in Hwf, Hseg.
  destruct (prefixes_spec _ _ (Hwf info Hin) Hpre) as (Hunder & _ & _).
  apply child_segment_nonempty with (name info); auto.
  destruct (nodes_parent _ n Hn) as [->|(parent & Hp & Hnp)].
  - now rewrite Hroot.
  - destruct Hinv as [_ Hinv]. apply child_of_ends with (item_name parent).
    now apply Hinv.
Qed.

Lemma path_invariant_always_witness :
  path_invariant
    (tree_of (Outer (Z.of_nat 2 - 1)
                    (navTree [doc "/a/b/" (meta_of "ab"); doc "/" (meta_of "home")])))
  /\ (Forall (fun info => double_slash (name info) = false)
             [doc "/a/b/" (meta_of "ab"); doc "/" (meta_of "home")] ->
      forall n c,
        In n (nodes (tree_of
                       (Outer (Z.of_nat 2 - 1)
                              (navTree [doc "/a/b/" (meta_of "ab");
                                        doc "/" (meta_of "home")])))) ->
        In c (children n) ->
        exists seg,
          seg <> ""%string /\ slash_free seg = true
          /\ item_name c = (item_name n ++ seg ++ "/")%string).
Proof.
  apply (path_invariant_always
           [doc "/a/b/" (meta_of "ab"); doc "/" (meta_of "home")]).
  - repeat constructor.
  - apply (run_total [doc "/a/b/" (meta_of "ab"); doc "/" (meta_of "home")]).
Defined.

(* ================================================================ *)
(** * Attaching metadata to a node that exists *)

Section Frame.

Lemma update_nth_length {A : Type} (f : A -> A) (l : list A) (i : nat) :
  List.length (update_nth i f l) = List.length l.
Proof.
  revert i. induction l as [|y l IH]; intros i; [reflexivity|].
  destruct i; simpl; [reflexivity | now rewrite IH].
Qed.

(** What the assignment [context.data = data] leaves as it was: every
    position keeps its node, with its path and its number of children,
    and, except at the position of [context], its metadata. *)
Lemma set_data_at_old (d : Data) (pos : list nat) :
  forall t pos' m,
    subtree_at pos' t = Some m ->
    exists m',
      subtree_at pos' (update_at pos (set_data d) t) = Some m'
      /\ item_name m' = item_name m
      /\ List.length (children m') = List.length (children m)
      /\ (pos' <> pos -> item_data m' = item_data m).
Proof.
  induction pos as [|j q IH]; intros t pos' m H.
  - destruct pos' as [|i p]; simpl in *.
    + injection H as <-. exists (set_data d t).
      repeat split; try (now destruct t); congruence.
    + exists m. replace (children (set_data d t)) with (children t)
        by now destruct t.
      repeat split; auto.
  - destruct pos' as [|i p]; simpl in *.
    + injection H as <-. eexists. split; [reflexivity|].
      simpl. repeat split. apply update_nth_length.
    + rewrite nth_error_update_nth.
      destruct (nth_error (children t) i) as [c|] eqn:Hc; [|discriminate].
      destruct (Nat.eqb_spec j i) as [->|Hne]; simpl.
      * destruct (IH c p m H) as (m' & Hm' & Hname & Hlen & Hdata).
        exists m'. repeat split; auto. intros E. apply Hdata. congruence.
      * exists m. repeat split; auto.
Qed.

(** The assignment adds no node. *)
Lemma set_data_at_new (d : Data) (pos : list nat) :
  forall t pos' m',
    subtree_at pos' (update_at pos (set_data d) t) = Some m' ->
    exists m, subtree_at pos' t = Some m.
Proof.
  induction pos as [|j q IH]; intros t pos' m' H.
  - destruct pos' as [|i p]; simpl in *; [eauto|].
    replace (children (set_data d t)) with (children t) in H
      by now destruct t.
    eauto.
  - destruct pos' as [|i p]; simpl in *; [eauto|].
    rewrite nth_error_update_nth in H.
    destruct (nth_error (children t) i) as [c|] eqn:Hc;
      destruct (Nat.eqb_spec j i) as [->|Hne]; simpl in H;
      try discriminate; eauto.
Qed.

(** The loops remove no node and move none. *)
Lemma descend_keeps_nodes (parts : list string) (d : Data) :
  forall idxs ctx pos m,
    subtree_at pos ctx = Some m ->
    exists m',
      subtree_at pos (descend parts idxs d ctx) = Some m'
      /\ item_name m' = item_name m.
Proof.
  induction idxs as [|k later IH]; intros ctx pos m H.
  - simpl. destruct pos as [|i p]; simpl in *.
    + injection H as <-. eexists. split; [reflexivity | now destruct ctx].
    + replace (children (set_data d ctx)) with (children ctx)
        by now destruct ctx.
      eauto.
  - rewrite descend_cons.
    destruct (Js.findIndex _ (children ctx)) as [i0|];
      destruct pos as [|i p]; simpl in *.
    + injection H as <-. eexists. split; reflexivity.
    + rewrite nth_error_update_nth.
      destruct (nth_error (children ctx) i) as [c|] eqn:Hc; [|discriminate].
      destruct (Nat.eqb_spec i0 i); simpl; eauto.
    + injection H as <-. eexists. split; reflexivity.
    + destruct (nth_error (children ctx) i) as [c|] eqn:Hc; [|discriminate].
      rewrite nth_error_app1, Hc by (apply nth_error_Some; congruence).
      eauto.
Qed.

Lemma fold_keeps_nodes (more : list Info) :
  forall tree pos m,
    subtree_at pos tree = Some m ->
    exists m',
      subtree_at pos (fold_left add_document more tree) = Some m'
      /\ item_name m' = item_name m.
Proof.
  induction more as [|info more IH]; intros tree pos m H; simpl; [eauto|].
  assert (Hone : exists m1, subtree_at pos (add_document tree info) = Some m1
                            /\ item_name m1 = item_name m).
  { unfold add_document. destruct (Js.truthy _); [eauto|].
    now apply descend_keeps_nodes. }
  destruct Hone as (m1 & H1 & E1).
  destruct (IH _ pos m1 H1) as (m' & H' & E'). exists m'. split; congruence.
Qed.

Variables (V : list string) (D : string -> Data).

(** When all the names of a document are visited already, the loop
    finds every child it looks for, and the document only assigns. *)
Lemma found_path (parts : list string) :
  forall idxs ctx,
    every_node (node_ok V D) ctx ->
    chain (item_name ctx) (map (part_name parts) idxs) ->
    (forall x, In x (map (part_name parts) idxs) -> In x V) ->
    exists pos n,
      subtree_at pos ctx = Some n
      /\ item_name n = last (map (part_name parts) idxs) (item_name ctx)
      /\ forall d, descend parts idxs d ctx = update_at pos (set_data d) ctx.
Proof.
  induction idxs as [|k later IH]; intros ctx Hok Hchain HV.
  - exists [], ctx. simpl. auto.
  - cbn [map] in *. destruct Hchain as [Hq Hlater].
    destruct ctx as [n d0 cs]. apply every_node_unfold in Hok.
    destruct Hok as [[Hkids _] Hcs]. cbn [item_name children] in *.
    assert (Hin : In (part_name parts k) (map item_name cs)).
    { rewrite Hkids. apply In_first_occurrences, filter_In.
      split; [apply HV; now left | now apply child_ofb_spec]. }
    destruct (Js.findIndex
                (fun c => String.eqb (item_name c) (part_name parts k)) cs)
      as [i|] eqn:Hfind.
    + destruct (findIndex_Some _ _ _ Hfind)
        as (l1 & c & l2 & -> & <- & Hc & _).
      apply String.eqb_eq in Hc.
      rewrite Forall_forall in Hcs.
      destruct (IH c (Hcs c (in_elt c l1 l2))) as (pos & n' & Hsub & Hname & Hd).
      * now rewrite Hc.
      * intros x Hx. apply HV. now right.
      * exists (List.length l1 :: pos), n'. repeat split.
        -- simpl. now rewrite nth_error_app2, Nat.sub_diag by lia.
        -- now rewrite last_cons, <- Hc.
        -- intros d. rewrite descend_cons. cbn [children item_name item_data].
           rewrite Hfind. cbn [update_at children item_name item_data].
           f_equal. apply update_nth_ext_at. intros x Hx.
           rewrite nth_error_app2, Nat.sub_diag in Hx by lia.
           injection Hx as <-. apply Hd.
    + exfalso. apply findIndex_None in Hfind.
      apply in_map_iff in Hin. destruct Hin as (c & Hc & Hin).
      rewrite Forall_forall in Hfind. apply Hfind in Hin.
      rewrite Hc, String.eqb_refl in Hin. discriminate.
Qed.

(** With the last name of a chain, all its names are visited. *)
Lemma chain_back (ns : list string) :
  closed V ->
  forall n, chain n ns -> (forall x, In x ns -> x <> "/") ->
            ns <> [] -> In (last ns n) V ->
            forall x, In x ns -> In x V.
Proof.
  intros Hclosed. induction ns as [|q rest IH]; intros n Hc Hroot Hne Hlast x Hx;
    [contradiction|].
  destruct Hc as [Hq Hrest]. rewrite last_cons in Hlast.
  destruct rest as [|q' rest]; simpl in Hlast.
  - destruct Hx as [<-|[]]. assumption.
  - assert (Hall : forall y, In y (q' :: rest) -> In y V).
    { apply (IH q Hrest); auto; [|discriminate].
      intros y Hy. apply Hroot. now right. }
    destruct Hx as [<-|Hx]; [|now apply Hall].
    destruct Hrest as [Hq' _].
    destruct (Hclosed q' q (Hall q' (or_introl eq_refl))
                (child_of_ends _ _ Hq) Hq') as [E|]; [|assumption].
    exfalso. apply (Hroot q); [now left | assumption].
Qed.

End Frame.

Section Keeping.

Lemma keeps_nodes_refl (t : Item) : keeps_nodes t t.
Proof. intros pos m H. eauto. Qed.

Lemma keeps_nodes_trans (a b c : Item) :
  keeps_nodes a b -> keeps_nodes b c -> keeps_nodes a c.
Proof.
  intros Hab Hbc pos m H. destruct (Hab pos m H) as (m1 & H1 & E1).
  destruct (Hbc pos m1 H1) as (m2 & H2 & E2). exists m2. split; congruence.
Qed.

(** A mutation that keeps the path of the node and the children it
    has keeps the nodes of the tree. *)
Lemma update_at_keeps_nodes (f : Item -> Item) :
  (forall x, item_name (f x) = item_name x) ->
  (forall x i c, nth_error (children x) i = Some c ->
                 nth_error (children (f x)) i = Some c) ->
  forall pos t, keeps_nodes t (update_at pos f t).
Proof.
  intros Hname Hkids. induction pos as [|j q IH]; intros t pos' m H.
  - destruct pos' as [|i p]; simpl in *.
    + injection H as <-. eauto.
    + destruct (nth_error (children t) i) as [c|] eqn:Hc; [|discriminate].
      rewrite (Hkids t i c Hc). eauto.
  - destruct pos' as [|i p]; simpl in *.
    + injection H as <-. eauto.
    + rewrite nth_error_update_nth.
      destruct (nth_error (children t) i) as [c|] eqn:Hc; [|discriminate].
      destruct (Nat.eqb_spec j i); simpl; [now apply IH | eauto].
Qed.

Lemma push_child_keeps (q : string) (pos : list nat) (t : Item) :
  keeps_nodes t (update_at pos (push_child q) t).
Proof.
  apply update_at_keeps_nodes; [reflexivity|].
  intros x i c H. simpl.
  now rewrite nth_error_app1 by (apply nth_error_Some; congruence).
Qed.

Lemma set_data_keeps (d : Data) (pos : list nat) (t : Item) :
  keeps_nodes t (update_at pos (set_data d) t).
Proof. apply update_at_keeps_nodes; now intros []. Qed.

(** No step of the construction removes or moves a node. *)
Lemma step_keeps_nodes (allInfo : list Info) (s s' : State) :
  step allInfo s = Some s' -> keeps_nodes (tree_of s) (tree_of s').
Proof.
  destruct s as [index tree | index tree parts d partIndex context].
  - simpl. destruct (_ <? _)%Z; [|discriminate].
    destruct (nth_error _ _); [|discriminate].
    destruct (Js.truthy _); intros H; injection H as <-;
      apply keeps_nodes_refl.
  - rewrite step_Inner. destruct (_ <? _)%nat; intros H; injection H as <-;
      simpl; [|apply set_data_keeps].
    destruct (subtree_at context tree); [|apply keeps_nodes_refl].
    destruct (Js.findIndex _ _); simpl;
      [apply keeps_nodes_refl | apply push_child_keeps].
Qed.

Lemma reaches_keeps_nodes (allInfo : list Info) (s s' : State) :
  reaches allInfo s s' -> keeps_nodes (tree_of s) (tree_of s').
Proof.
  induction 1 as [|s s1 s2 Hstep _ IH]; [apply keeps_nodes_refl|].
  apply keeps_nodes_trans with (tree_of s1); [|assumption].
  now apply step_keeps_nodes with allInfo.
Qed.

End Keeping.

(** C10.  When the path of a document that is not excluded has a node
    already, adding the document replaces the metadata of that node
    and nothing else: the node keeps its path and its children, every
    other node is unchanged, and no node is added; and no step of the
    construction, for any document, removes or moves a node. *)
Theorem attach_replaces_only_data (allInfo : list Info) (info : Info) :
  canonical_paths (allInfo ++ [info]) -> excluded info = false ->
  (exists n, In n (nodes (navTree allInfo)) /\ item_name n = name info) ->
  only_data_replaced (navTree allInfo) (navTree (allInfo ++ [info]))
                     (name info) (data info)
  /\ (forall s s', reaches (allInfo ++ [info]) s s' ->
                   keeps_nodes (tree_of s) (tree_of s')).
Proof.
  intros Hwf He (n0 & Hn0 & Hname0).
  split; [|intros s s'; apply reaches_keeps_nodes].
  unfold canonical_paths in Hwf. apply Forall_app in Hwf.
  destruct Hwf as [Hwf Hcan]. apply Forall_inv in Hcan.
  pose proof (navTree_invariant allInfo Hwf) as Hinv.
  pose proof (prefixes_chain _ Hcan) as Hchain.
  assert (HV : forall x, In x (prefixes (name info)) ->
                         In x (visited allInfo)).
  { destruct (node_visited allInfo Hwf n0 Hn0) as [->|Hin].
    - rewrite item_name_navTree in Hname0. rewrite <- Hname0.
      intros x [].
    - destruct (prefixes (name info)) as [|q rest] eqn:E; [intros x []|].
      rewrite <- E in *.
      apply (chain_back (visited allInfo) (prefixes (name info))
               (visited_closed _ Hwf) "/" Hchain).
      + intros x Hx. now apply (prefixes_spec (name info) x Hcan Hx).
      + rewrite E. discriminate.
      + now rewrite (prefixes_last _ Hcan), <- Hname0. }
  rewrite <- (item_name_navTree allInfo) in Hchain.
  destruct (found_path (visited allInfo) (data_for allInfo)
              (parts_of (name info)) (part_indexes (parts_of (name info)))
              (navTree allInfo) Hinv Hchain HV)
    as (pos & n & Hsub & Hname & Hd).
  fold (prefixes (name info)) in Hname.
  rewrite item_name_navTree, (prefixes_last _ Hcan) in Hname.
  assert (Hnew : navTree (allInfo ++ [info])
                 = update_at pos (set_data (data info)) (navTree allInfo)).
  { rewrite navTree_snoc. unfold add_document. fold (excluded info).
    rewrite He. apply Hd. }
  rewrite Hnew. exists pos, n. repeat split; auto.
  - now rewrite (subtree_at_update_at _ _ _ _ Hsub).
  - apply set_data_at_old.
  - apply set_data_at_new.
Qed.

Lemma attach_replaces_only_data_witness :
  only_data_replaced
    (navTree [doc "/a/b/" (meta_of "ab")])
    (navTree ([doc "/a/b/" (meta_of "ab")] ++ [doc "/a/" (meta_of "a")]))
    "/a/" (meta_of "a")
  /\ (forall s s',
        reaches ([doc "/a/b/" (meta_of "ab")] ++ [doc "/a/" (meta_of "a")]) s s' ->
        keeps_nodes (tree_of s) (tree_of s')).
Proof.
  apply (attach_replaces_only_data
           [doc "/a/b/" (meta_of "ab")] (doc "/a/" (meta_of "a"))).
  - repeat constructor.
  - reflexivity.
  - eexists. split; [right; left; reflexivity | reflexivity].
Defined.

(* ================================================================ *)
(** * The loader *)

Section Loader.

Local Open Scope string_scope.

Lemma string_drop_app (a b : string) :
  string_drop (String.length a) (a ++ b) = b.
Proof. induction a as [|c a IH]; simpl; [now destruct b | exact IH]. Qed.

(** Cutting at the last character of the input directory's URL. *)
Lemma slice_from_input (input rest : string) :
  ends_with_slash input = true ->
  slice_from (Z.of_nat (String.length input) - 1) (input ++ rest)
  = "/" ++ rest.
Proof.
  intros H. apply ends_with_slash_spec in H. destruct H as [dir ->].
  unfold slice_from. rewrite !length_append. simpl String.length.
  replace (Z.of_nat (String.length dir + 1) - 1)%Z
    with (Z.of_nat (String.length dir)) by lia.
  rewrite (proj2 (Z.ltb_ge _ _)) by lia.
  rewrite Z.min_l by lia. rewrite Nat2Z.id.
  rewrite !append_assoc. apply string_drop_app.
Qed.

Lemma eqb_length (a b : string) :
  String.length a <> String.length b -> String.eqb a b = false.
Proof. intros H. apply String.eqb_neq. intros ->. now apply H. Qed.

(** The replacement at a match that no earlier position has. *)
Lemma replace_at_end_match (pats : list string) (by_ p : string) :
  In p pats ->
  forall x,
    (forall x1 x2, x = x1 ++ x2 -> x2 <> "" ->
                   existsb (String.eqb (x2 ++ p)) pats = false) ->
    replace_at_end pats by_ (x ++ p) = x ++ by_.
Proof.
  intros Hp. induction x as [|c x IH]; intros Hfirst.
  - assert (E : existsb (String.eqb p) pats = true).
    { apply existsb_exists. exists p. split; [exact Hp | apply String.eqb_refl]. }
    change ("" ++ p) with p. change ("" ++ by_) with by_.
    destruct p; cbn [replace_at_end]; now rewrite E.
  - assert (H0 := Hfirst "" (String c x) eq_refl ltac:(discriminate)).
    cbn [replace_at_end append] in *. rewrite H0.
    f_equal. apply IH. intros x1 x2 E Hx2.
    apply (Hfirst (String c x1) x2); [now rewrite E | assumption].
Qed.

Lemma replace_extension_md (x : string) :
  replace_at_end [".md"; ".mdx"] "/" (x ++ ".md") = x ++ "/".
Proof.
  apply replace_at_end_match; [now left|].
  intros x1 x2 _ Hx2. simpl. rewrite orb_false_r. apply orb_false_iff.
  split.
  - apply eqb_length. rewrite length_append. simpl.
    destruct x2; [congruence | simpl; lia].
  - destruct x2 as [|c [|c' x2]]; [congruence | |].
    + simpl. now destruct (Ascii.eqb c ".").
    + apply eqb_length. rewrite length_append. simpl. lia.
Qed.

Lemma replace_extension_mdx (x : string) :
  replace_at_end [".md"; ".mdx"] "/" (x ++ ".mdx") = x ++ "/".
Proof.
  apply replace_at_end_match; [right; now left|].
  intros x1 x2 _ Hx2. simpl. rewrite orb_false_r. apply orb_false_iff.
  split; apply eqb_length; rewrite length_append; simpl;
    (destruct x2; [congruence | simpl; lia]).
Qed.

Lemma replace_index_match (x : string) :
  replace_at_end ["/index/"] "/" (x ++ "/index/") = x ++ "/".
Proof.
  apply replace_at_end_match; [now left|].
  intros x1 x2 _ Hx2. simpl. rewrite orb_false_r.
  apply eqb_length. rewrite length_append. simpl.
  destruct x2; [congruence | simpl; lia].
Qed.

Lemma replace_at_end_none (p by_ s : string) :
  ends_with p s = false -> replace_at_end [p] by_ s = s.
Proof.
  induction s as [|c s IH]; cbn [ends_with replace_at_end existsb]; intros H;
    apply orb_false_iff in H; destruct H as [H1 H2];
    rewrite H1; cbn [orb]; [reflexivity|].
  f_equal. now apply IH.
Qed.




End Loader.



Section IndexFiles.

Local Open Scope string_scope.

(** The name of the file [index.md] or [index.mdx] of a directory. *)
Lemma index_name (input dir ext : string) :
  ends_with_slash input = true -> ends_with_slash ("/" ++ dir) = true ->
  ext = ".md" \/ ext = ".mdx" ->
  document_name input (input ++ dir ++ "index" ++ ext) = "/" ++ dir.
Proof.
  intros Hin Hdir Hext. unfold document_name.
  rewrite (slice_from_input input _ Hin).
  apply ends_with_slash_spec in Hdir. destruct Hdir as [y Hy].
  rewrite <- (append_assoc "/" dir), Hy.
  replace ((y ++ "/") ++ "index" ++ ext) with ((y ++ "/index") ++ ext)
    by now rewrite !append_assoc.
  destruct Hext as [->| ->];
    [rewrite replace_extension_md | rewrite replace_extension_mdx];
    rewrite append_assoc; apply replace_index_match.
Qed.

(** The name of a file that is not an index file. *)
Lemma plain_name (input stem ext : string) :
  ends_with_slash input = true ->
  ends_with "/index/" ("/" ++ stem ++ "/") = false ->
  ext = ".md" \/ ext = ".mdx" ->
  document_name input (input ++ stem ++ ext) = "/" ++ stem ++ "/".
Proof.
  intros Hin Hstem Hext. unfold document_name.
  rewrite (slice_from_input input _ Hin), <- (append_assoc "/" stem).
  destruct Hext as [->| ->];
    [rewrite replace_extension_md | rewrite replace_extension_mdx];
    rewrite append_assoc; now apply replace_at_end_none.
Qed.

End IndexFiles.

(** X2.  The index file of a directory has the path of the directory:
    [index.md] and [index.mdx] in the input directory itself give
    ["/"], and in the directory [dir] below it give ["/" ++ dir]. *)
Theorem index_file_name (input dir : string) :
  ends_with_slash input = true ->
  ends_with_slash ("/" ++ dir) = true ->
  document_name input (input ++ dir ++ "index.md") = ("/" ++ dir)%string
  /\ document_name input (input ++ dir ++ "index.mdx") = ("/" ++ dir)%string.
Proof.
  intros Hin Hdir.
  split; [apply (index_name input dir ".md") | apply (index_name input dir ".mdx")];
    auto.
Qed.

Lemma index_file_name_witness :
  document_name "file:///mdx/docs/" ("file:///mdx/docs/" ++ "" ++ "index.md")
  = ("/" ++ "")%string
  /\ document_name "file:///mdx/docs/" ("file:///mdx/docs/" ++ "" ++ "index.mdx")
     = ("/" ++ "")%string.
Proof.
  apply (index_file_name "file:///mdx/docs/" ""); reflexivity.
Defined.

(** X3.  Four files share one path: [stem.md], [stem.mdx] and the
    index files [stem/index.md] and [stem/index.mdx] all get the path
    ["/" ++ stem ++ "/"] (for a [stem] that is not itself [index] or
    in a directory [index]), so the list of documents can hold one
    path more than once. *)
Theorem files_with_one_name (input stem : string) :
  ends_with_slash input = true ->
  ends_with "/index/" ("/" ++ stem ++ "/") = false ->
  document_name input (input ++ stem ++ ".md") = ("/" ++ stem ++ "/")%string
  /\ document_name input (input ++ stem ++ ".mdx") = ("/" ++ stem ++ "/")%string
  /\ document_name input (input ++ (stem ++ "/") ++ "index.md")
     = ("/" ++ stem ++ "/")%string
  /\ document_name input (input ++ (stem ++ "/") ++ "index.mdx")
     = ("/" ++ stem ++ "/")%string.
Proof.
  intros Hin Hstem.
  assert (Hdir : ends_with_slash ("/" ++ stem ++ "/") = true).
  { apply ends_with_slash_spec. exists ("/" ++ stem)%string.
    symmetry. apply (append_assoc "/" stem "/"). }
  repeat split.
  - apply (plain_name input stem ".md"); auto.
  - apply (plain_name input stem ".mdx"); auto.
  - apply (index_name input (stem ++ "/") ".md"); auto.
  - apply (index_name input (stem ++ "/") ".mdx"); auto.
Qed.

Lemma files_with_one_name_witness :
  document_name "file:///mdx/docs/" ("file:///mdx/docs/" ++ "guides" ++ ".md")
  = ("/" ++ "guides" ++ "/")%string
  /\ document_name "file:///mdx/docs/" ("file:///mdx/docs/" ++ "guides" ++ ".mdx")
     = ("/" ++ "guides" ++ "/")%string
  /\ document_name "file:///mdx/docs/"
       ("file:///mdx/docs/" ++ ("guides" ++ "/") ++ "index.md")
     = ("/" ++ "guides" ++ "/")%string
  /\ document_name "file:///mdx/docs/"
       ("file:///mdx/docs/" ++ ("guides" ++ "/") ++ "index.mdx")
     = ("/" ++ "guides" ++ "/")%string.
Proof.
  apply (files_with_one_name "file:///mdx/docs/" "guides"); reflexivity.
Defined.

(* ================================================================ *)
(** * Authors *)

(** X4.  The list of names given to the list formatter has at most
    three items: up to three authors are all named, in order; of more
    than three only the first two are named, followed by ["others"].
    The [author] by-line that the loader stores is the one of the
    module's own [meta] when that has an [author] property, whatever
    the authors are; otherwise it is the formatted list, and is
    undefined exactly when there is no author. *)
Theorem byline_at_most_three (format : list string -> string)
    (field : AuthorField) :
  let names := map author_name (authors_of field) in
  List.length (abbreviated_authors names) <= 3
  /\ (List.length names <= 3 -> abbreviated_authors names = names)
  /\ (3 < List.length names ->
      abbreviated_authors names = [nth 0 names ""; nth 1 names ""; "others"])
  /\ (forall value, stored_author format field (Present value) = value)
  /\ (names <> [] ->
      stored_author format field Absent
      = Some (format (abbreviated_authors names)))
  /\ (stored_author format field Absent = None <-> authors_of field = []).
Proof.
  intros names. unfold stored_author, author_line. fold names.
  unfold abbreviated_authors.
  destruct (3 <? List.length names)%nat eqn:E.
  - apply Nat.ltb_lt in E.
    destruct names as [|a [|b [|c [|d rest]]]] eqn:En; simpl in E; try lia.
    repeat split; simpl; try lia; try discriminate.
    intros H. unfold names in En. rewrite H in En. discriminate.
  - apply Nat.ltb_ge in E. repeat split; auto; try lia.
    + destruct names; [congruence | reflexivity].
    + destruct names eqn:En; simpl; [|discriminate]. intros _.
      unfold names in En. now apply map_eq_nil in En.
    + intros H. unfold names. now rewrite H.
Qed.

(* ================================================================ *)
(** * The page image *)

(** X5.  Only the home page has the image of 3062 by 1490; every other
    page has one of 2400 by 1256, and, but for the two pages of
    version 2, for a path of plain path characters it is the
    [index.png] in the page's own directory of the site. *)
Theorem page_image_beside_page (config : Config) (name : string) :
  canonical name = true ->
  (image_width (page_image config name) = 3062%Z <-> name = "/")
  /\ (name <> "/" ->
      image_width (page_image config name) = 2400%Z
      /\ image_height (page_image config name) = 1256%Z)
  /\ (simple_path name = true ->
      name <> "/" -> name <> "/blog/v2/" -> name <> "/migrating/v2/" ->
      image_url (page_image config name)
      = (url_origin (site config) ++ name ++ "index.png")%string).
Proof.
  intros Hcan. unfold canonical in Hcan. apply andb_true_iff in Hcan.
  destruct Hcan as [Hs He]. unfold page_image.
  destruct (String.eqb_spec name "/") as [->|Hroot].
  - repeat split; auto; congruence.
  - repeat split; simpl; try discriminate; try congruence.
    intros Hsimple _ Hblog Hmig.
    rewrite (proj2 (String.eqb_neq _ _) Hblog).
    rewrite (proj2 (String.eqb_neq _ _) Hmig). simpl.
    rewrite (new_URL_absolute _ _ (simple_path_plain _ Hsimple) Hs).
    rewrite new_URL_relative by reflexivity.
    unfold href. simpl.
    now rewrite (url_dirname_dir name He), append_nil_r.
Qed.

Lemma page_image_beside_page_witness :
  (image_width (page_image example_config "/docs/") = 3062%Z <-> "/docs/" = "/")
  /\ ("/docs/" <> "/" ->
      image_width (page_image example_config "/docs/") = 2400%Z
      /\ image_height (page_image example_config "/docs/") = 1256%Z)
  /\ (simple_path "/docs/" = true ->
      "/docs/" <> "/" -> "/docs/" <> "/blog/v2/" ->
      "/docs/" <> "/migrating/v2/" ->
      image_url (page_image example_config "/docs/")
      = (url_origin (site example_config) ++ "/docs/" ++ "index.png")%string).
Proof.
  apply (page_image_beside_page example_config "/docs/"). reflexivity.
Defined.

(* ================================================================ *)
(** * [rehypeLazyCss] *)

Section Objects.

Lemma get_assign_same (k v : string) (o : Props) :
  get k (assign k v o) = Some v.
Proof.
  induction o as [|[k' v'] o IH]; simpl.
  - now rewrite String.eqb_refl.
  - destruct (String.eqb_spec k' k) as [->|Hne]; simpl.
    + now rewrite String.eqb_refl.
    + now rewrite (proj2 (String.eqb_neq _ _) Hne).
Qed.

Lemma get_assign_other (k k' v : string) (o : Props) :
  k' <> k -> get k' (assign k v o) = get k' o.
Proof.
  intros Hne. induction o as [|[k1 v1] o IH]; simpl.
  - destruct (String.eqb_spec k k'); [congruence | reflexivity].
  - destruct (String.eqb_spec k1 k) as [->|Hk]; simpl.
    + destruct (String.eqb_spec k k'); [congruence | reflexivity].
    + now rewrite IH.
Qed.

Lemma get_app (k : string) (a b : Props) :
  get k (a ++ b)
  = match get k a with
    | Some v => Some v
    | None => get k b
    end.
Proof.
  induction a as [|[k1 v1] a IH]; simpl; [reflexivity|].
  now destruct (String.eqb k1 k).
Qed.

Lemma get_fold_assign (k : string) (o : Props) :
  forall acc,
    get k (fold_left (fun acc kv => assign (fst kv) (snd kv) acc) o acc)
    = match get k (rev o) with
      | Some v => Some v
      | None => get k acc
      end.
Proof.
  induction o as [|[k1 v1] o IH]; intros acc; simpl; [reflexivity|].
  rewrite IH, get_app. simpl.
  destruct (get k (rev o)); [reflexivity|].
  destruct (String.eqb_spec k1 k) as [->|Hne].
  - apply get_assign_same.
  - apply get_assign_other. congruence.
Qed.

Lemma get_absent (k : string) (o : Props) :
  ~ In k (map fst o) -> get k o = None.
Proof.
  induction o as [|[k1 v1] o IH]; simpl; intros H; [reflexivity|].
  destruct (String.eqb_spec k1 k); [tauto | apply IH; tauto].
Qed.

Lemma get_rev (k : string) (o : Props) :
  NoDup (map fst o) -> get k (rev o) = get k o.
Proof.
  induction o as [|[k1 v1] o IH]; simpl; intros H; [reflexivity|].
  inversion H as [|? ? Hnotin Hnd]; subst.
  rewrite get_app, (IH Hnd). simpl.
  destruct (String.eqb_spec k1 k) as [->|Hne].
  - now rewrite (get_absent k o Hnotin).
  - now destruct (get k o).
Qed.

(** Copying an object keeps the value of every property. *)
Lemma get_spread (k : string) (o : Props) :
  NoDup (map fst o) -> get k (spread o) = get k o.
Proof.
  intros H. unfold spread. rewrite get_fold_assign, (get_rev k o H).
  now destruct (get k o).
Qed.

End Objects.

(** X6.  The two links of a style never take [rel] from the style
    (nor, for the preloading link, [as] and [onLoad]) and keep every
    other property of it, [href] for one, with its value. *)
Theorem link_properties (props : Props) :
  NoDup (map fst props) ->
  get "rel" (preload_props props) = Some "preload"
  /\ get "as" (preload_props props) = Some "style"
  /\ get "onLoad" (preload_props props)
     = Some "this.onload=null;this.rel='stylesheet'"
  /\ get "rel" (stylesheet_props props) = Some "stylesheet"
  /\ forall k,
       k <> "rel" ->
       get k (stylesheet_props props) = get k props
       /\ (k <> "as" -> k <> "onLoad" ->
           get k (preload_props props) = get k props).
Proof.
  intros Hobj. unfold preload_props, stylesheet_props. repeat split.
  - rewrite !get_assign_other by discriminate. apply get_assign_same.
  - rewrite get_assign_other by discriminate. apply get_assign_same.
  - apply get_assign_same.
  - apply get_assign_same.
  - rewrite get_assign_other by assumption. now apply get_spread.
  - intros Has Hon. rewrite !get_assign_other by assumption.
    now apply get_spread.
Qed.

Lemma link_properties_witness :
  get "rel" (preload_props [("href", "/index.css"); ("rel", "alternate")])
  = Some "preload"
  /\ get "as" (preload_props [("href", "/index.css"); ("rel", "alternate")])
     = Some "style"
  /\ get "onLoad" (preload_props [("href", "/index.css"); ("rel", "alternate")])
     = Some "this.onload=null;this.rel='stylesheet'"
  /\ get "rel" (stylesheet_props [("href", "/index.css"); ("rel", "alternate")])
     = Some "stylesheet"
  /\ forall k,
       k <> "rel" ->
       get k (stylesheet_props [("href", "/index.css"); ("rel", "alternate")])
       = get k [("href", "/index.css"); ("rel", "alternate")]
       /\ (k <> "as" -> k <> "onLoad" ->
           get k (preload_props [("href", "/index.css"); ("rel", "alternate")])
           = get k [("href", "/index.css"); ("rel", "alternate")]).
Proof.
  apply (link_properties [("href", "/index.css"); ("rel", "alternate")]).
  repeat constructor; simpl; intuition discriminate.
Defined.

Section HastPositions.

Lemma update_nth_same {A : Type} (f : A -> A) (l : list A) (i : nat) :
  (forall x, f x = x) -> update_nth i f l = l.
Proof.
  intros H. revert i. induction l as [|y l IH]; intros i; [reflexivity|].
  destruct i; simpl; [now rewrite H | now rewrite IH].
Qed.

Lemma node_update_same (f : Node -> Node) (pos : list nat) :
  (forall x, f x = x) -> forall t, node_update pos f t = t.
Proof.
  intros H. induction pos as [|i pos IH]; intros t; simpl; [apply H|].
  destruct t; try reflexivity; f_equal; now apply update_nth_same.
Qed.

Lemma push_children_nil (n : Node) : push_children [] n = n.
Proof. destruct n; simpl; try reflexivity; now rewrite app_nil_r. Qed.

Lemma node_at_update (f : Node -> Node) (pos : list nat) :
  forall t n,
    node_at pos t = Some n -> node_at pos (node_update pos f t) = Some (f n).
Proof.
  induction pos as [|i pos IH]; intros t n H; simpl in *.
  - now injection H as ->.
  - destruct t as [cs|tag props cs|ty v]; simpl in *.
    + rewrite nth_error_update_nth, Nat.eqb_refl.
      destruct (nth_error cs i); [simpl; now apply IH | discriminate].
    + rewrite nth_error_update_nth, Nat.eqb_refl.
      destruct (nth_error cs i); [simpl; now apply IH | discriminate].
    + destruct i; discriminate.
Qed.

(** Pushing children onto the node at [pos] leaves the node at every
    position that is not on the way from the root to [pos]. *)
Lemma node_at_push_elsewhere (more : list Node) (pos : list nat) :
  forall t pos' m,
    node_at pos' t = Some m ->
    ~ (exists rest, pos = pos' ++ rest) ->
    node_at pos' (node_update pos (push_children more) t) = Some m.
Proof.
  induction pos as [|j q IH]; intros t pos' m H Hnot.
  - destruct pos' as [|i p]; [exfalso; apply Hnot; now exists []|].
    simpl in *.
    destruct (nth_error (node_children t) i) as [c|] eqn:Hc; [|discriminate].
    assert (Hkeep : nth_error (node_children (push_children more t)) i
                    = Some c).
    { destruct t; simpl in *;
        try (rewrite nth_error_app1 by (apply nth_error_Some; congruence));
        assumption. }
    now rewrite Hkeep.
  - destruct pos' as [|i p]; [exfalso; apply Hnot; now exists (j :: q)|].
    simpl in H.
    destruct (nth_error (node_children t) i) as [c|] eqn:Hc; [|discriminate].
    assert (Hkid : nth_error
                     (node_children
                        (node_update (j :: q) (push_children more) t)) i
                   = if Nat.eqb j i
                     then Some (node_update q (push_children more) c)
                     else Some c).
    { destruct t; simpl in *; try (destruct i; discriminate);
        rewrite nth_error_update_nth, Hc; now destruct (Nat.eqb j i). }
    cbn [node_at]. rewrite Hkid.
    destruct (Nat.eqb_spec j i) as [->|Hne]; [|assumption].
    apply IH; [assumption|]. intros [rest ->]. apply Hnot. now exists rest.
Qed.

End HastPositions.

(** X7.  Without styles the transform changes nothing, but still
    requires the document to have a [head]. *)
Theorem lazy_css_no_styles (lib : Hast) (tree : Node) :
  rehypeLazyCss lib [] tree
  = match select lib "head" tree with
    | Some _ => Some tree
    | None => None
    end.
Proof.
  unfold rehypeLazyCss. destruct (select lib "head" tree); [|reflexivity].
  simpl. f_equal. apply node_update_same. apply push_children_nil.
Qed.

(** X8.  With styles, the [head] gets, after the children it has and
    in the order of the styles, one preloading link per style and then
    a single [noscript] that holds one stylesheet link per style; the
    [head] keeps its name and properties, and every node that is not
    the [head] or one of its ancestors is untouched, the children the
    [head] had among them. *)
Theorem lazy_css_appends (lib : Hast) (styles : list Props) (tree : Node)
    (head : list nat) (tag : string) (props : Props) (cs : list Node) :
  select lib "head" tree = Some head ->
  node_at head tree = Some (Element tag props cs) ->
  styles <> [] ->
  exists tree',
    rehypeLazyCss lib styles tree = Some tree'
    /\ node_at head tree'
       = Some (Element tag props
                 (cs
                  ++ map (fun p => h lib "link" (preload_props p) []) styles
                  ++ [h lib "noscript" []
                        (map (fun p => h lib "link" (stylesheet_props p) [])
                             styles)]))
    /\ forall pos m,
         node_at pos tree = Some m ->
         ~ (exists rest, head = pos ++ rest) ->
         node_at pos tree' = Some m.
Proof.
  intros Hsel Hhead Hne. unfold rehypeLazyCss. rewrite Hsel.
  rewrite length_map.
  destruct styles as [|s styles]; [congruence|].
  cbn [List.length Nat.ltb Nat.leb]. eexists. split; [reflexivity|]. split.
  - rewrite (node_at_update _ head _ _
               (node_at_update _ head _ _ Hhead)).
    simpl. now rewrite <- app_assoc.
  - intros pos m Hm Hnot. apply node_at_push_elsewhere; [|assumption].
    now apply node_at_push_elsewhere.
Qed.

Lemma lazy_css_appends_witness :
  let tree :=
    Root [Element "html" []
            [Element "head" [] [Element "title" [] [Literal "text" "MDX"]];
             Element "body" [] []]] in
  let styles := [[("href", "https://esm.sh/both.css")]] in
  exists tree',
    rehypeLazyCss example_hast styles tree = Some tree'
    /\ node_at [0; 0] tree'
       = Some (Element "head" []
                 ([Element "title" [] [Literal "text" "MDX"]]
                  ++ map (fun p => h example_hast "link" (preload_props p) [])
                         styles
                  ++ [h example_hast "noscript" []
                        (map (fun p =>
                                h example_hast "link" (stylesheet_props p) [])
                             styles)]))
    /\ forall pos m,
         node_at pos tree = Some m ->
         ~ (exists rest, [0; 0] = pos ++ rest) ->
         node_at pos tree' = Some m.
Proof.
  intros tree styles.
  apply (lazy_css_appends example_hast styles tree [0; 0] "head" []
           [Element "title" [] [Literal "text" "MDX"]]).
  - reflexivity.
  - reflexivity.
  - discriminate.
Defined.

(* ================================================================ *)
(** * More on the navigation tree *)

Lemma fold_ignores_excluded (allInfo : list Info) :
  forall tree,
    fold_left add_document allInfo tree
    = fold_left add_document
        (filter (fun info => negb (excluded info)) allInfo) tree.
Proof.
  induction allInfo as [|info allInfo IH]; intros tree; simpl; [reflexivity|].
  destruct (excluded info) eqn:E; simpl.
  - unfold add_document at 2. fold (excluded info). rewrite E. apply IH.
  - apply IH.
Qed.

(** X9.  Exclusion is filtering: the tree of a list of documents is
    the tree of the documents of the list that are not excluded, so
    two lists that differ in excluded documents only, anywhere in the
    list, give the same tree. *)
Theorem navTree_ignores_excluded (allInfo : list Info) :
  navTree allInfo
  = navTree (filter (fun info => negb (excluded info)) allInfo).
Proof. apply fold_ignores_excluded. Qed.

Section Census.

Variable allInfo : list Info.
Hypothesis Hwf : canonical_paths allInfo.

Lemma visited_not_root : ~ In "/"%string (visited allInfo).
Proof.
  intros H. apply visited_In in H. destruct H as (info & Hin & _ & Hpre).
  pose proof Hwf as Hcan. unfold canonical_paths in Hcan.
  rewrite Forall_forall in Hcan.
  now destruct (prefixes_spec _ _ (Hcan info Hin) Hpre) as (_ & _ & Hne).
Qed.

Lemma node_names_spec (x : string) :
  In x (map item_name (nodes (navTree allInfo)))
  <-> x = "/"%string \/ In x (visited allInfo).
Proof.
  split.
  - intros H. apply in_map_iff in H. destruct H as (n & <- & Hn).
    destruct (node_visited allInfo Hwf n Hn) as [->|HV]; [left | now right].
    apply item_name_navTree.
  - intros [->|HV].
    + rewrite <- (item_name_navTree allInfo). apply in_map, nodes_self.
    + destruct (visited_present allInfo Hwf x HV) as (n & Hn & <-).
      now apply in_map.
Qed.

(** After a prefix of a document's path comes the next one, one level
    below, unless it is the path itself. *)
Lemma chain_next (ns : list string) :
  forall r, chain r ns ->
            forall x, In x ns ->
                      x = last ns r \/ exists y, In y ns /\ child_of x y.
Proof.
  induction ns as [|q rest IH]; intros r Hc x Hx; [contradiction|].
  destruct Hc as [Hq Hrest]. rewrite last_cons.
  destruct Hx as [<-|Hx].
  - destruct rest as [|q' rest]; [now left | right].
    exists q'. split; [right; now left | apply Hrest].
  - destruct (IH q Hrest x Hx) as [E|(y & Hy & Hchild)]; [now left | right].
    exists y. split; [now right | assumption].
Qed.

End Census.

(** X10.  The nodes of the tree are the root and one node for each
    path that is the path or a directory prefix of a document that is
    not excluded: no path has two nodes, however often it occurs, and
    the number of nodes is one more than the number of those paths. *)
Theorem node_census (allInfo : list Info) :
  canonical_paths allInfo ->
  NoDup (map item_name (nodes (navTree allInfo)))
  /\ (forall x, In x (map item_name (nodes (navTree allInfo)))
                <-> x = "/"%string \/ In x (visited allInfo))
  /\ List.length (nodes (navTree allInfo))
     = 1 + List.length (first_occurrences (visited allInfo)).
Proof.
  intros Hwf.
  assert (Hnd : NoDup (map item_name (nodes (navTree allInfo)))).
  { apply node_names_NoDup with (visited allInfo) (data_for allInfo).
    now apply navTree_invariant. }
  assert (Hnd' : NoDup ("/"%string :: first_occurrences (visited allInfo))).
  { constructor; [|apply NoDup_first_occurrences].
    intros H. apply (proj1 (In_first_occurrences _ _)) in H.
    now apply (visited_not_root allInfo Hwf). }
  split; [assumption|]. split; [apply (node_names_spec allInfo Hwf)|].
  rewrite <- (length_map item_name).
  change (1 + List.length (first_occurrences (visited allInfo)))
    with (List.length ("/"%string :: first_occurrences (visited allInfo))).
  apply Nat.le_antisymm; apply NoDup_incl_length; auto; intros x Hx.
  - apply (node_names_spec allInfo Hwf) in Hx.
    destruct Hx as [->|Hx]; [now left | right].
    now apply In_first_occurrences.
  - apply (node_names_spec allInfo Hwf).
    destruct Hx as [<-|Hx]; [now left | right].
    now apply (proj1 (In_first_occurrences _ _)) in Hx.
Qed.

Lemma node_census_witness :
  let allInfo := [doc "/a/b/" (meta_of "ab"); doc "/a/" (meta_of "a");
                  doc "/a/b/" (meta_of "again")] in
  NoDup (map item_name (nodes (navTree allInfo)))
  /\ (forall x, In x (map item_name (nodes (navTree allInfo)))
                <-> x = "/"%string \/ In x (visited allInfo))
  /\ List.length (nodes (navTree allInfo))
     = 1 + List.length (first_occurrences (visited allInfo)).
Proof.
  apply (node_census [doc "/a/b/" (meta_of "ab"); doc "/a/" (meta_of "a");
                      doc "/a/b/" (meta_of "again")]).
  repeat constructor.
Defined.

(** X11.  Below the root every node without children is the node of a
    document that is not excluded: a placeholder always has a child,
    and the tree has no branch that ends in a directory without a
    page. *)
Theorem leaves_are_documents (allInfo : list Info) (n : Item) :
  canonical_paths allInfo ->
  In n (nodes (navTree allInfo)) -> n <> navTree allInfo ->
  children n = [] ->
  exists info,
    In info allInfo /\ excluded info = false /\ name info = item_name n.
Proof.
  intros Hwf Hn Hroot Hleaf.
  destruct (node_visited allInfo Hwf n Hn) as [|HV]; [contradiction|].
  pose proof HV as HV'. apply visited_In in HV'.
  destruct HV' as (info & Hin & He & Hpre).
  exists info. repeat split; auto.
  pose proof Hwf as Hcan. unfold canonical_paths in Hcan.
  rewrite Forall_forall in Hcan. specialize (Hcan info Hin).
  destruct (chain_next (prefixes (name info)) "/" (prefixes_chain _ Hcan)
              (item_name n) Hpre) as [E|(y & Hy & Hchild)].
  - now rewrite E, (prefixes_last _ Hcan).
  - exfalso.
    assert (HyV : In y (visited allInfo)) by (apply visited_In; eauto).
    destruct (child_present allInfo Hwf n y Hn Hchild HyV) as (c & Hc & _).
    rewrite Hleaf in Hc. contradiction.
Qed.

Lemma leaves_are_documents_witness :
  exists info,
    In info [doc "/a/b/" (meta_of "ab")]
    /\ excluded info = false
    /\ name info = item_name (mkItem "/a/b/" (meta_of "ab") []).
Proof.
  apply (leaves_are_documents [doc "/a/b/" (meta_of "ab")]
           (mkItem "/a/b/" (meta_of "ab") [])).
  - repeat constructor.
  - simpl. right. right. now left.
  - discriminate.
  - reflexivity.
Defined.

(** X12.  A node whose path is the path of no document that is not
    excluded is a placeholder: its metadata is [{}]. *)
Theorem placeholder_has_no_metadata (allInfo : list Info) (n : Item) :
  canonical_paths allInfo ->
  In n (nodes (navTree allInfo)) ->
  (forall info, In info allInfo -> excluded info = false ->
                name info <> item_name n) ->
  item_data n = emptyData.
Proof.
  intros Hwf Hn Hnone.
  destruct (node_ok_navTree allInfo Hwf n Hn) as [_ Hdata].
  rewrite Hdata. unfold data_for.
  destruct (last_document (item_name n) allInfo) as [info|] eqn:E;
    [exfalso | reflexivity].
  apply last_document_Some in E. destruct E as (Hin & He & Hname).
  exact (Hnone info Hin He Hname).
Qed.

Lemma placeholder_has_no_metadata_witness :
  item_data (mkItem "/a/" emptyData [mkItem "/a/b/" (meta_of "ab") []])
  = emptyData.
Proof.
  apply (placeholder_has_no_metadata
           [doc "/a/b/" (meta_of "ab"); doc "/a/" (hidden_meta_of "a")]
           (mkItem "/a/" emptyData [mkItem "/a/b/" (meta_of "ab") []])).
  - repeat constructor.
  - simpl. right. now left.
  - intros info [<-|[<-|[]]] He; simpl in *; discriminate.
Defined.

(* ================================================================ *)
(** * The files of a document *)

Section Files.

Local Open Scope string_scope.

Lemma append_inj_r (a b c : string) : a ++ c = b ++ c -> a = b.
Proof.
  intros H.
  assert (Hlen : String.length a = String.length b).
  { apply (f_equal String.length) in H. rewrite !length_append in H. lia. }
  revert b H Hlen. induction a as [|x a IH]; intros [|y b] H Hlen;
    simpl in *; try discriminate; [reflexivity|].
  injection H as -> H. f_equal. apply IH; [assumption | lia].
Qed.

Lemma json_is_not_html (a b : string) :
  a ++ "index.json" <> b ++ "index.html".
Proof.
  intros H.
  assert (Hlen : String.length a = String.length b).
  { apply (f_equal String.length) in H. rewrite !length_append in H.
    simpl in H. lia. }
  revert b H Hlen. induction a as [|x a IH]; intros [|y b] H Hlen;
    simpl in *; try discriminate.
  injection H as _ H. apply (IH b); [assumption | lia].
Qed.

Lemma canonical_rel (p : string) :
  canonical p = true ->
  exists rel, p = "/" ++ rel /\ ends_with_slash ("/" ++ rel) = true.
Proof.
  unfold canonical. intros H. apply andb_true_iff in H. destruct H as [Hs He].
  destruct p as [|c rel]; [discriminate|]. simpl in Hs.
  apply Ascii.eqb_eq in Hs. subst c. now exists rel.
Qed.

End Files.

(** X13.  For a document whose canonical path is made of plain path
    characters, the metadata file [jsonUrl] is the [index.json], and
    the page the [index.html], of the directory that the path names
    below the output directory; both URLs have no query and no
    fragment. *)
Theorem simple_path_output_files (config : Config) (p : string) :
  ends_with_slash (url_pathname (output config)) = true ->
  canonical p = true -> simple_path p = true ->
  exists rel,
    p = ("/" ++ rel)%string
    /\ json_url config p
       = mkURL (url_origin (output config))
               (url_pathname (output config) ++ rel ++ "index.json") "" ""
    /\ new_URL "index.html" (json_url config p)
       = mkURL (url_origin (output config))
               (url_pathname (output config) ++ rel ++ "index.html") "" "".
Proof.
  intros Hout Hcan Hsimple.
  destruct (canonical_rel p Hcan) as (rel & -> & Hrel).
  apply simple_path_plain in Hsimple. simpl in Hsimple.
  exists rel. split; [reflexivity|]. split.
  - now apply json_url_path.
  - now apply html_url_path.
Qed.

Lemma simple_path_output_files_witness :
  exists rel,
    "/docs/getting-started/" = ("/" ++ rel)%string
    /\ json_url example_config "/docs/getting-started/"
       = mkURL "file://" ("/mdx/public/" ++ rel ++ "index.json") "" ""
    /\ new_URL "index.html" (json_url example_config "/docs/getting-started/")
       = mkURL "file://" ("/mdx/public/" ++ rel ++ "index.html") "" "".
Proof.
  apply (simple_path_output_files example_config "/docs/getting-started/");
    reflexivity.
Defined.

(** X14.  Documents of different canonical paths, both made of plain
    path characters, have no file URL in common: the URLs of their
    metadata files differ, those of their pages differ, and no
    metadata file has the URL of the page of any document. *)
Theorem distinct_paths_distinct_files (config : Config) (a b : string) :
  ends_with_slash (url_pathname (output config)) = true ->
  canonical a = true -> canonical b = true ->
  simple_path a = true -> simple_path b = true ->
  (a <> b ->
   json_url config a <> json_url config b
   /\ new_URL "index.html" (json_url config a)
      <> new_URL "index.html" (json_url config b))
  /\ json_url config a <> new_URL "index.html" (json_url config b).
Proof.
  intros Hout Ha Hb Hsa Hsb.
  destruct (canonical_rel a Ha) as (ra & -> & Hra).
  destruct (canonical_rel b Hb) as (rb & -> & Hrb).
  apply simple_path_plain in Hsa, Hsb. simpl in Hsa, Hsb.
  rewrite !(html_url_path config _ Hout) by assumption.
  rewrite !(json_url_path config _ Hout) by assumption.
  split; [intros Hne; split|]; intros E; injection E as E;
    apply append_inj_l in E.
  - apply append_inj_r in E. congruence.
  - apply append_inj_r in E. congruence.
  - now apply json_is_not_html in E.
Qed.

Lemma distinct_paths_distinct_files_witness :
  ("/a/" <> "/b/" ->
   json_url example_config "/a/" <> json_url example_config "/b/"
   /\ new_URL "index.html" (json_url example_config "/a/")
      <> new_URL "index.html" (json_url example_config "/b/"))
  /\ json_url example_config "/a/"
     <> new_URL "index.html" (json_url example_config "/b/").
Proof.
  apply (distinct_paths_distinct_files example_config "/a/" "/b/");
    reflexivity.
Defined.

(* ================================================================ *)
(** * The render phase *)

Section Render.

Lemma interleaving_complete {A : Type} (tasks : list (list A)) (log : list A) :
  interleaving tasks log ->
  forall task e, In task tasks -> In e task -> In e log.
Proof.
  induction 1 as [tasks Hnil | before e0 rest after log _ IH];
    intros task e Htask He.
  - rewrite Forall_forall in Hnil. rewrite (Hnil task Htask) in He.
    contradiction.
  - apply in_app_iff in Htask. destruct Htask as [Hb|[<-|Ha]].
    + right. apply (IH task); auto. apply in_or_app. now left.
    + destruct He as [<-|He]; [now left | right].
      apply (IH rest); auto. apply in_elt.
    + right. apply (IH task); auto. apply in_or_app. right. now right.
Qed.

Lemma interleaving_sound {A : Type} (tasks : list (list A)) (log : list A) :
  interleaving tasks log ->
  forall e, In e log -> exists task, In task tasks /\ In e task.
Proof.
  induction 1 as [tasks Hnil | before e0 rest after log _ IH]; intros e He;
    [contradiction|].
  destruct He as [<-|He].
  - exists (e0 :: rest). split; [apply in_elt | now left].
  - destruct (IH e He) as (task & Htask & Hin).
    apply in_app_iff in Htask. destruct Htask as [Hb|[<-|Ha]].
    + exists task. split; [apply in_or_app; now left | assumption].
    + exists (e0 :: rest). split; [apply in_elt | now right].
    + exists task. split; [apply in_or_app; right; now right | assumption].
Qed.

Lemma interleaving_skip_empty {A : Type} (tasks : list (list A))
    (log : list A) :
  interleaving tasks log -> interleaving ([] :: tasks) log.
Proof.
  induction 1 as [tasks Hnil | before e rest after log _ IH].
  - constructor. now constructor.
  - apply (interleaving_step ([] :: before) e rest after log). exact IH.
Qed.

(** The tasks one after the other are one of the interleavings. *)
Lemma interleaving_sequential {A : Type} (tasks : list (list A)) :
  interleaving tasks (List.concat tasks).
Proof.
  induction tasks as [|task tasks IH]; simpl.
  - constructor. constructor.
  - induction task as [|e task IHtask]; simpl.
    + now apply interleaving_skip_empty.
    + apply (interleaving_step [] e task tasks). exact IHtask.
Qed.

(** The task of the document at index [i]. *)
Lemma render_tasks_nth (lib : Libraries) (allInfo : list Info)
    (pages : list string) (i : nat) (info : Info) :
  List.length pages = List.length allInfo ->
  nth_error allInfo i = Some info ->
  exists page,
    nth_error pages i = Some page
    /\ In (render_task lib info page) (render_tasks lib allInfo pages).
Proof.
  intros Hlen Hi.
  destruct (nth_error pages i) as [page|] eqn:Hpage.
  - exists page. split; [reflexivity|]. unfold render_tasks.
    apply (in_map (fun task => render_task lib (fst task) (snd task))
             (combine allInfo pages) (info, page)).
    apply (nth_error_In _ i). revert i pages Hlen Hi Hpage.
    induction allInfo as [|d allInfo IH]; intros [|i] [|q pages] Hlen Hi Hq;
      simpl in *; try discriminate.
    + now injection Hi as ->; injection Hq as ->.
    + apply IH; auto.
  - apply nth_error_None in Hpage.
    assert (i < List.length allInfo) by (apply nth_error_Some; congruence).
    lia.
Qed.

Lemma render_tasks_In (lib : Libraries) (allInfo : list Info)
    (pages : list string) (task : list Effect) :
  In task (render_tasks lib allInfo pages) ->
  exists info page, In info allInfo /\ task = render_task lib info page.
Proof.
  unfold render_tasks. intros H. apply in_map_iff in H.
  destruct H as ([info page] & <- & Hin). exists info, page.
  split; [now apply in_combine_l in Hin | reflexivity].
Qed.

End Render.

(** X15.  In every run of the render phase in which no operation
    fails, whatever the order in which the tasks take their turns,
    every document, excluded from the navigation or not, gets its two
    files: [JSON.stringify] of its [data], as the loader left it, is
    written to its [jsonUrl], and its page to the path of [index.html]
    resolved against [jsonUrl].  Nothing else is written. *)
Theorem render_writes_both_files (lib : Libraries) (allInfo : list Info)
    (pages : list string) (log : list Effect) :
  List.length pages = List.length allInfo ->
  interleaving (render_tasks lib allInfo pages) log ->
  (forall i info,
     nth_error allInfo i = Some info ->
     In (WriteFile (UrlObject (jsonUrl info)) (JSON_stringify lib (data info)))
        log
     /\ exists page,
          nth_error pages i = Some page
          /\ In (WriteFile
                   (PathString
                      (fileURLToPath lib (new_URL "index.html" (jsonUrl info))))
                   page) log)
  /\ (forall file contents,
        In (WriteFile file contents) log ->
        exists info,
          In info allInfo
          /\ (file = UrlObject (jsonUrl info)
              \/ file = PathString
                          (fileURLToPath lib
                             (new_URL "index.html" (jsonUrl info))))).
Proof.
  intros Hlen Hlog. split.
  - intros i info Hi.
    destruct (render_tasks_nth lib allInfo pages i info Hlen Hi)
      as (page & Hpage & Htask).
    split; [|exists page; split; [exact Hpage|]];
      apply (interleaving_complete _ _ Hlog _ _ Htask); unfold render_task.
    + right. now left.
    + apply in_or_app. right. apply in_or_app. right. now left.
  - intros file contents Hin.
    destruct (interleaving_sound _ _ Hlog _ Hin) as (task & Htask & He).
    destruct (render_tasks_In lib allInfo pages task Htask)
      as (info & page & Hinfo & ->).
    exists info. split; [exact Hinfo|]. unfold render_task in He.
    cbn [app In] in He.
    destruct He as [He|[He|He]]; [discriminate | injection He; auto |].
    apply in_app_iff in He. destruct He as [He|He].
    + match type of He with
      | context [if ?b then _ else _] => destruct b
      end; [contradiction|].
      destruct He as [He|[]]. discriminate.
    + destruct He as [He|[He|[]]]; [injection He; auto | discriminate].
Qed.

Lemma render_writes_both_files_witness :
  let hidden :=
    mkInfo "/draft/" (json_url example_config "/draft/") (hidden_meta_of "d") 0 in
  let home := mkInfo "/" (json_url example_config "/") (meta_of "home") 1 in
  let allInfo := [home; hidden] in
  let pages := ["<!doctype html>home"; "<!doctype html>draft"] in
  let log := List.concat (render_tasks example_libraries allInfo pages) in
  excluded hidden = true
  /\ (forall i info,
        nth_error allInfo i = Some info ->
        In (WriteFile (UrlObject (jsonUrl info))
              (JSON_stringify example_libraries (data info))) log
        /\ exists page,
             nth_error pages i = Some page
             /\ In (WriteFile
                      (PathString
                         (fileURLToPath example_libraries
                            (new_URL "index.html" (jsonUrl info))))
                      page) log)
  /\ (forall file contents,
        In (WriteFile file contents) log ->
        exists info,
          In info allInfo
          /\ (file = UrlObject (jsonUrl info)
              \/ file = PathString
                          (fileURLToPath example_libraries
                             (new_URL "index.html" (jsonUrl info))))).
Proof.
  intros hidden home allInfo pages log. split; [reflexivity|].
  apply (render_writes_both_files example_libraries allInfo pages log).
  - reflexivity.
  - apply interleaving_sequential.
Defined.
